(** * A shallow embedding of the position-list parser and the extractors of
    cutr (src/src/lib.rs): [parse_pos], [extract_chars], [extract_bytes] and
    [extract_fields], with the parts of the Rust standard library they rely
    on ([str::split], [str::parse::<usize>], [String::from_utf8_lossy]). *)

From Stdlib Require Import ZArith NArith Lia List Bool Ascii String.
Import ListNotations.

Open Scope string_scope.

(** ** Results and error messages *)

(** [MyResult<T>]: the error side is the [Box<dyn Error>] built from a
    formatted message; we keep the message it displays. *)
Inductive result (T : Type) : Type :=
| Ok (t : T)
| Err (msg : string).
Arguments Ok {T} t.
Arguments Err {T} msg.

Definition quote : string := String (ascii_of_nat 34) EmptyString.

(** [value_error]: [format!("illegal list value: \"{}\"", v)] *)
Definition value_error (v : string) : string :=
  "illegal list value: " ++ quote ++ v ++ quote.

Definition empty_list_error : string := "position lists cannot be empty".

(** ** Decimal text of a [usize] (Rust's [Display] for integers) *)

Definition digit_char (d : N) : ascii := ascii_of_N (48 + d).

Fixpoint digits_aux (fuel : nat) (n : N) (acc : string) : string :=
  match fuel with
  | O => acc
  | S f =>
      let acc' := String (digit_char (n mod 10)) acc in
      if (n <? 10)%N then acc' else digits_aux f (n / 10)%N acc'
  end.

Definition N_to_dec (n : N) : string :=
  digits_aux (S (N.to_nat (N.size n))) n EmptyString.

(** [format!("First number in range ({}) must be lower than second number ({})", lower, upper)] *)
Definition inverted_error (lower upper : N) : string :=
  "First number in range (" ++ N_to_dec lower ++
  ") must be lower than second number (" ++ N_to_dec upper ++ ")".

(** ** [usize] and [str::parse::<usize>] *)

(** The target is a 64-bit platform. *)
Definition usize_max : N := (2 ^ 64 - 1)%N.

(** [(c as char).to_digit(10)] *)
Definition to_digit (c : ascii) : option N :=
  let n := N_of_ascii c in
  if ((48 <=? n)%N && (n <=? 57)%N)%bool then Some (n - 48)%N else None.

(** The digit loop of [from_str_radix]: [checked_mul] by the radix, then
    [checked_add] of the digit; any failure is an [Err]. *)
Fixpoint parse_digits (result : N) (digits : string) : option N :=
  match digits with
  | EmptyString => Some result
  | String c rest =>
      let mul := (result * 10)%N in
      match to_digit c with
      | None => None
      | Some x =>
          if (usize_max <? mul)%N then None
          else let r := (mul + x)%N in
               if (usize_max <? r)%N then None else parse_digits r rest
      end
  end.

(** [<usize as FromStr>::from_str]: empty is an error; a lone sign is an
    error; a leading ['+'] is skipped; ['-'] stays and is an invalid digit. *)
Definition parse_usize (src : string) : option N :=
  match src with
  | EmptyString => None
  | String c rest =>
      if (Ascii.eqb c "+"%char || Ascii.eqb c "-"%char)%bool then
        match rest with
        | EmptyString => None
        | _ => if Ascii.eqb c "+"%char then parse_digits 0 rest
               else parse_digits 0 src
        end
      else parse_digits 0 src
  end.

(** ** [str::split] on a one-character pattern *)

Fixpoint split_on (sep : ascii) (s : string) : list string :=
  match s with
  | EmptyString => [EmptyString]
  | String a s' =>
      let parts := split_on sep s' in
      if Ascii.eqb a sep then EmptyString :: parts
      else match parts with
           | p :: ps => String a p :: ps
           | [] => [String a EmptyString]
           end
  end.

(** ** [parse_pos] *)

(** [Range<usize>] *)
Record Range := mk_range { range_start : N; range_end : N }.

Definition PositionList := list Range.

(** The closure mapped over the endpoints of one part. *)
Definition parse_endpoint (part endpoint : string) : result N :=
  if String.prefix "+" endpoint then Err (value_error part)
  else match parse_usize endpoint with
       | None => Err (value_error part)
       | Some bound => if (bound =? 0)%N then Err (value_error "0") else Ok bound
       end.

(** [.collect::<Result<Vec<_>, _>>()]: stops at the first [Err]. *)
Fixpoint collect_bounds (part : string) (interval : list string) : result (list N) :=
  match interval with
  | [] => Ok []
  | e :: es =>
      match parse_endpoint part e with
      | Err m => Err m
      | Ok b => match collect_bounds part es with
                | Err m => Err m
                | Ok bs => Ok (b :: bs)
                end
      end
  end.

(** The body of the [for part in parts] loop: the range pushed, or the
    error returned. [bounds] is never empty ([split] yields at least one
    piece), so [bounds[0]] is [nth 0 bounds 0]. *)
Definition parse_part (range part : string) : result Range :=
  if String.eqb part EmptyString then Err (value_error range)
  else
    let interval := split_on "-"%char part in
    if (2 <? List.length interval)%nat then Err (value_error range)
    else match collect_bounds part interval with
         | Err m => Err m
         | Ok bounds =>
             let lower := nth 0 bounds 0%N in
             if (List.length bounds =? 1)%nat then Ok (mk_range (lower - 1) lower)
             else
               let upper := nth 1 bounds 0%N in
               if (upper =? 0)%N then Err (value_error "0")
               else if (upper <=? lower)%N then Err (inverted_error lower upper)
               else Ok (mk_range (lower - 1) upper)
         end.

Fixpoint parse_parts (range : string) (parts : list string) (list : PositionList)
  : result PositionList :=
  match parts with
  | [] => Ok list
  | part :: rest =>
      match parse_part range part with
      | Err m => Err m
      | Ok r => parse_parts range rest (list ++ [r])%list
      end
  end.

Definition parse_pos (range : string) : result PositionList :=
  if String.eqb range EmptyString then Err empty_list_error
  else parse_parts range (split_on ","%char range) [].

(** ** UTF-8: [char::encode_utf8] and [String::from_utf8_lossy] *)

Open Scope Z_scope.

(** A [&str] is a sequence of [char]s (Unicode scalar values); its bytes
    ([as_bytes]) are their UTF-8 encodings, as [encode_utf8_raw] writes them. *)
Definition encode_utf8 (code : Z) : list Z :=
  if code <? 0x80 then [code]
  else if code <? 0x800 then
    [Z.lor (Z.land (Z.shiftr code 6) 0x1F) 0xC0;
     Z.lor (Z.land code 0x3F) 0x80]
  else if code <? 0x10000 then
    [Z.lor (Z.land (Z.shiftr code 12) 0x0F) 0xE0;
     Z.lor (Z.land (Z.shiftr code 6) 0x3F) 0x80;
     Z.lor (Z.land code 0x3F) 0x80]
  else
    [Z.lor (Z.land (Z.shiftr code 18) 0x07) 0xF0;
     Z.lor (Z.land (Z.shiftr code 12) 0x3F) 0x80;
     Z.lor (Z.land (Z.shiftr code 6) 0x3F) 0x80;
     Z.lor (Z.land code 0x3F) 0x80].

Definition as_bytes (line : list Z) : list Z := flat_map encode_utf8 line.

(** A [char]: a scalar value, outside the surrogate block. *)
Definition is_scalar (c : Z) : bool :=
  (0 <=? c) && (c <=? 0x10FFFF) && negb ((0xD800 <=? c) && (c <=? 0xDFFF)).

(** [core::str::utf8_char_width] *)
Definition utf8_char_width (b : Z) : Z :=
  if b <? 0x80 then 1
  else if b <? 0xC2 then 0
  else if b <? 0xE0 then 2
  else if b <? 0xF0 then 3
  else if b <? 0xF5 then 4
  else 0.

(** [byte as i8] *)
Definition as_i8 (b : Z) : Z := if b <? 128 then b else b - 256.

(** The test [if next!() as i8 >= -64 { break }]: not a continuation byte. *)
Definition not_cont (b : Z) : bool := -64 <=? as_i8 b.

Definition in_range (lo hi b : Z) : bool := (lo <=? b) && (b <=? hi).

(** The second-byte patterns of three- and four-byte sequences. *)
Definition second_ok3 (b0 b1 : Z) : bool :=
  ((b0 =? 0xE0) && in_range 0xA0 0xBF b1)
  || (in_range 0xE1 0xEC b0 && in_range 0x80 0xBF b1)
  || ((b0 =? 0xED) && in_range 0x80 0x9F b1)
  || (in_range 0xEE 0xEF b0 && in_range 0x80 0xBF b1).

Definition second_ok4 (b0 b1 : Z) : bool :=
  ((b0 =? 0xF0) && in_range 0x90 0xBF b1)
  || (in_range 0xF1 0xF3 b0 && in_range 0x80 0xBF b1)
  || ((b0 =? 0xF4) && in_range 0x80 0x8F b1).

(** The scalar value a valid sequence stands for ([next_code_point]). *)
Definition decode2 (b0 b1 : Z) : Z :=
  Z.lor (Z.shiftl (Z.land b0 0x1F) 6) (Z.land b1 0x3F).
Definition decode3 (b0 b1 b2 : Z) : Z :=
  Z.lor (Z.shiftl (Z.land b0 0x0F) 12)
        (Z.lor (Z.shiftl (Z.land b1 0x3F) 6) (Z.land b2 0x3F)).
Definition decode4 (b0 b1 b2 b3 : Z) : Z :=
  Z.lor (Z.shiftl (Z.land b0 0x07) 18)
        (Z.lor (Z.shiftl (Z.land b1 0x3F) 12)
               (Z.lor (Z.shiftl (Z.land b2 0x3F) 6) (Z.land b3 0x3F))).

Definition REPLACEMENT_CHARACTER : Z := 0xFFFD.

(** [String::from_utf8_lossy], read back as its [char]s: the [Utf8Chunks]
    loop. A valid sequence yields its scalar value; an invalid chunk (the
    bytes consumed before the loop breaks) yields one U+FFFD and decoding
    resumes right after it. At the end of input [next!()] reads [0], which
    breaks the loop as well. *)
Fixpoint from_utf8_lossy (v : list Z) : list Z :=
  match v with
  | [] => []
  | b0 :: r0 =>
      if b0 <? 0x80 then b0 :: from_utf8_lossy r0
      else
        let w := utf8_char_width b0 in
        if w =? 2 then
          match r0 with
          | b1 :: r1 =>
              if not_cont b1 then REPLACEMENT_CHARACTER :: from_utf8_lossy r0
              else decode2 b0 b1 :: from_utf8_lossy r1
          | [] => [REPLACEMENT_CHARACTER]
          end
        else if w =? 3 then
          match r0 with
          | b1 :: r1 =>
              if negb (second_ok3 b0 b1) then REPLACEMENT_CHARACTER :: from_utf8_lossy r0
              else match r1 with
                   | b2 :: r2 =>
                       if not_cont b2 then REPLACEMENT_CHARACTER :: from_utf8_lossy r1
                       else decode3 b0 b1 b2 :: from_utf8_lossy r2
                   | [] => [REPLACEMENT_CHARACTER]
                   end
          | [] => [REPLACEMENT_CHARACTER]
          end
        else if w =? 4 then
          match r0 with
          | b1 :: r1 =>
              if negb (second_ok4 b0 b1) then REPLACEMENT_CHARACTER :: from_utf8_lossy r0
              else match r1 with
                   | b2 :: r2 =>
                       if not_cont b2 then REPLACEMENT_CHARACTER :: from_utf8_lossy r1
                       else match r2 with
                            | b3 :: r3 =>
                                if not_cont b3 then REPLACEMENT_CHARACTER :: from_utf8_lossy r2
                                else decode4 b0 b1 b2 b3 :: from_utf8_lossy r3
                            | [] => [REPLACEMENT_CHARACTER]
                            end
                   | [] => [REPLACEMENT_CHARACTER]
                   end
          | [] => [REPLACEMENT_CHARACTER]
          end
        else REPLACEMENT_CHARACTER :: from_utf8_lossy r0
  end.

Close Scope Z_scope.

(** ** The extractors *)

(** The indices a [Range<usize>] iterates over. *)
Definition range_indices (r : Range) : list nat :=
  let s := N.to_nat (range_start r) in
  seq s (N.to_nat (range_end r) - s).

Fixpoint filter_map {A B : Type} (f : A -> option B) (l : list A) : list B :=
  match l with
  | [] => []
  | x :: xs => match f x with
               | Some y => y :: filter_map f xs
               | None => filter_map f xs
               end
  end.

(** [extract_chars]: [line.chars()] indexed with [chars.get(i)]. *)
Definition extract_chars (line : list Z) (char_pos : PositionList) : list Z :=
  let chars := line in
  flat_map (fun r => filter_map (fun i => nth_error chars i) (range_indices r)) char_pos.

(** [extract_bytes]: [line.as_bytes()] indexed with [bytes.get(i)], then
    [String::from_utf8_lossy]. *)
Definition extract_bytes (line : list Z) (byte_pos : PositionList) : list Z :=
  let bytes := as_bytes line in
  let extracted :=
    flat_map (fun r => filter_map (fun i => nth_error bytes i) (range_indices r)) byte_pos in
  from_utf8_lossy extracted.

(** [extract_fields]: a [StringRecord] is its list of fields. *)
Definition extract_fields (record : list string) (field_pos : PositionList) : list string :=
  flat_map (fun r => filter_map (fun i => nth_error record i) (range_indices r)) field_pos.

(** ** Reference notions the claims are phrased in *)

(** The in-bounds part of [xs] that a range covers: the elements at the
    indices [start <= i < end] that exist, in order. *)
Definition in_bounds_slice {A : Type} (xs : list A) (r : Range) : list A :=
  firstn (N.to_nat (range_end r) - N.to_nat (range_start r))
         (skipn (N.to_nat (range_start r)) xs).

Definition is_digit (c : ascii) : bool :=
  match to_digit c with Some _ => true | None => false end.

Fixpoint all_digits (s : string) : bool :=
  match s with
  | EmptyString => true
  | String c s' => is_digit c && all_digits s'
  end.

(** The decimal value of a digit string (unbounded). *)
Fixpoint dec_value_from (acc : N) (s : string) : N :=
  match s with
  | EmptyString => acc
  | String c s' =>
      dec_value_from (acc * 10 + match to_digit c with Some d => d | None => 0 end)%N s'
  end.

Definition dec_value (s : string) : N := dec_value_from 0 s.

(** Writing a position list back in 1-based notation: a width-one range
    [[N-1, N)] as ["N"], a wider range [[L-1, U)] as ["L-U"], joined by
    commas. *)
Definition serialize_range (r : Range) : string :=
  if (range_end r =? range_start r + 1)%N then N_to_dec (range_end r)
  else N_to_dec (range_start r + 1) ++ "-" ++ N_to_dec (range_end r).

Definition serialize_positions (l : PositionList) : string :=
  String.concat "," (map serialize_range l).

(** A part that [parse_part] accepts, and an endpoint that the endpoint
    closure accepts. *)
Definition part_ok (range part : string) : Prop := exists r, parse_part range part = Ok r.

Definition endpoint_ok (part e : string) : Prop := exists b, parse_endpoint part e = Ok b.

Fixpoint has_char (c : ascii) (s : string) : bool :=
  match s with
  | EmptyString => false
  | String a s' => Ascii.eqb a c || has_char c s'
  end.

(** A part the parser accepts, read off [parse_part]: a nonempty digit
    string [N] with [1 <= N <= usize::MAX], giving [[N-1, N)], or two such
    digit strings [L-U] with [1 <= L < U <= usize::MAX], giving [[L-1, U)].
    Leading zeros are allowed. *)
Definition accepted_part (p : string) (r : Range) : Prop :=
  (all_digits p = true /\ p <> EmptyString /\
   (1 <= dec_value p <= usize_max)%N /\
   r = mk_range (dec_value p - 1) (dec_value p)) \/
  (exists a b, p = a ++ String "-"%char b /\
   all_digits a = true /\ a <> EmptyString /\
   all_digits b = true /\ b <> EmptyString /\
   (1 <= dec_value a)%N /\ (dec_value a < dec_value b)%N /\ (dec_value b <= usize_max)%N /\
   r = mk_range (dec_value a - 1) (dec_value b)).

Fixpoint string_forallb (f : ascii -> bool) (s : string) : bool :=
  match s with
  | EmptyString => true
  | String a s' => f a && string_forallb f s'
  end.

(** The characters a selection string is made of. *)
Definition pos_char (c : ascii) : bool :=
  is_digit c || Ascii.eqb c ","%char || Ascii.eqb c "-"%char.

(** ** [str::from_utf8] *)

(** [core::str::Utf8Error] *)
Record Utf8Error := mk_utf8_error { valid_up_to : N; error_len : option N }.

(** [run_utf8_validation]: the same walk as the lossy decoder; the first
    invalid sequence stops it, with the offset of its first byte and the
    number of bytes it spans ([None] when the input ends inside it). *)
Fixpoint run_utf8_validation (off : N) (v : list Z) : option Utf8Error :=
  match v with
  | [] => None
  | b0 :: r0 =>
      if (b0 <? 0x80)%Z then run_utf8_validation (off + 1) r0
      else
        let w := utf8_char_width b0 in
        if (w =? 2)%Z then
          match r0 with
          | b1 :: r1 =>
              if not_cont b1 then Some (mk_utf8_error off (Some 1%N))
              else run_utf8_validation (off + 2) r1
          | [] => Some (mk_utf8_error off None)
          end
        else if (w =? 3)%Z then
          match r0 with
          | b1 :: r1 =>
              if negb (second_ok3 b0 b1) then Some (mk_utf8_error off (Some 1%N))
              else match r1 with
                   | b2 :: r2 =>
                       if not_cont b2 then Some (mk_utf8_error off (Some 2%N))
                       else run_utf8_validation (off + 3) r2
                   | [] => Some (mk_utf8_error off None)
                   end
          | [] => Some (mk_utf8_error off None)
          end
        else if (w =? 4)%Z then
          match r0 with
          | b1 :: r1 =>
              if negb (second_ok4 b0 b1) then Some (mk_utf8_error off (Some 1%N))
              else match r1 with
                   | b2 :: r2 =>
                       if not_cont b2 then Some (mk_utf8_error off (Some 2%N))
                       else match r2 with
                            | b3 :: r3 =>
                                if not_cont b3 then Some (mk_utf8_error off (Some 3%N))
                                else run_utf8_validation (off + 4) r3
                            | [] => Some (mk_utf8_error off None)
                            end
                   | [] => Some (mk_utf8_error off None)
                   end
          | [] => Some (mk_utf8_error off None)
          end
        else Some (mk_utf8_error off (Some 1%N))
  end.

(** [impl Display for Utf8Error] *)
Definition utf8_error_msg (e : Utf8Error) : string :=
  match error_len e with
  | Some n => "invalid utf-8 sequence of " ++ N_to_dec n ++ " bytes from index " ++
              N_to_dec (valid_up_to e)
  | None => "incomplete utf-8 byte sequence from index " ++ N_to_dec (valid_up_to e)
  end.

(** [str::from_utf8]: on valid input the [char]s of the [&str] are those the
    decoding loop reads, with no replacement. *)
Definition from_utf8 (v : list Z) : result (list Z) :=
  match run_utf8_validation 0 v with
  | None => Ok (from_utf8_lossy v)
  | Some e => Err (utf8_error_msg e)
  end.

(** ** [BufRead::lines] *)

(** [read_until(b'\n')]: the chunks of the input, each with its newline;
    [cur] holds the bytes of the current chunk, last first. *)
Fixpoint read_chunks (cur : list Z) (v : list Z) : list (list Z) :=
  match v with
  | [] => match cur with [] => [] | _ :: _ => [rev cur] end
  | b :: v' =>
      if (b =? 10)%Z then rev (b :: cur) :: read_chunks [] v'
      else read_chunks (b :: cur) v'
  end.

(** [buf.ends_with(c)] followed by [buf.pop()] *)
Definition pop_if (c : Z) (s : list Z) : option (list Z) :=
  match rev s with
  | x :: r => if (x =? c)%Z then Some (rev r) else None
  | [] => None
  end.

(** The end of [Lines::next]: drop a final ['\n'], then a ['\r'] before it. *)
Definition strip_newline (buf : list Z) : list Z :=
  match pop_if 10 buf with
  | Some b => match pop_if 13 b with Some b' => b' | None => b end
  | None => buf
  end.

(** [io::Error] [INVALID_UTF8] that [read_line] returns. *)
Definition INVALID_UTF8 : string := "stream did not contain valid UTF-8".

(** [file.lines()]: each chunk is checked as UTF-8 ([read_line]). Reads of
    the underlying file are taken to succeed. *)
Definition lines (v : list Z) : list (result (list Z)) :=
  map (fun buf => match from_utf8 buf with
                  | Ok s => Ok (strip_newline s)
                  | Err _ => Err INVALID_UTF8
                  end) (read_chunks [] v).

(** ** [get_args] *)

(** [Extract] *)
Inductive Extract : Type :=
| Fields (field_pos : PositionList)
| Bytes (byte_pos : PositionList)
| Chars (char_pos : PositionList).

(** [Config] *)
Record Config := mk_config { files : list string; delimiter : Z; extract : Extract }.

(** What [get_matches()] hands to the rest of [get_args]: the file names,
    the delimiter as its [char]s, and the values of the three selection
    options, each as the UTF-8 bytes of the [&str]. clap fills in the
    defaults (["-"] and a tab) and refuses conflicting options before. *)
Record Matches := mk_matches {
  m_files : list string;
  m_delimiter : list Z;
  m_bytes : option string;
  m_chars : option string;
  m_fields : option string }.

(** A byte string as a [string], and back. *)
Definition string_of_bytes (bs : list Z) : string :=
  fold_right (fun b s => String (ascii_of_N (Z.to_N b)) s) EmptyString bs.

Definition bytes_of_string (s : string) : list Z :=
  map (fun a => Z.of_N (N_of_ascii a)) (list_ascii_of_string s).

(** [format!("--delim \"{}\" must be a single byte", delimiter)] *)
Definition delim_error (d : list Z) : string :=
  "--delim " ++ quote ++ string_of_bytes (as_bytes d) ++ quote ++ " must be a single byte".

Definition must_have_error : string := "Must have --fields, --bytes, or --chars".

Definition map_result {A B : Type} (f : A -> B) (r : result A) : result B :=
  match r with Ok a => Ok (f a) | Err m => Err m end.

Definition get_args (matches : Matches) : result Config :=
  let delimiter := m_delimiter matches in
  if negb (List.length (as_bytes delimiter) =? 1)%nat then Err (delim_error delimiter)
  else
    let extract :=
      match m_bytes matches with
      | Some v => map_result Bytes (parse_pos v)
      | None =>
          match m_chars matches with
          | Some v => map_result Chars (parse_pos v)
          | None =>
              match m_fields matches with
              | Some v => map_result Fields (parse_pos v)
              | None => Err must_have_error
              end
          end
      end in
    match extract with
    | Err e => Err e
    | Ok ex => Ok (mk_config (m_files matches) (nth 0 (as_bytes delimiter) 0%Z) ex)
    end.

(** ** [open] and [run] *)

(** What the program writes: a line on standard output (its bytes, newline
    included) or a line on standard error. *)
Inductive output : Type :=
| Stdout (bytes : list Z)
| Stderr (text : string).

(** The file system: [fs name] is the content of the file, or the message
    of the [io::Error] that [File::open] returns; [stdin] is what the fresh
    [BufReader] over [io::stdin()] reads. *)
Definition open (fs : string -> result (list Z)) (stdin : list Z) (filename : string)
  : result (list Z) :=
  if String.eqb filename "-" then Ok stdin else fs filename.

(** The [Bytes] and [Chars] loops: [println!] of each extracted line; a
    failing [line?] ends [run] with that error. *)
Fixpoint print_lines (ex : list Z -> list Z) (ls : list (result (list Z)))
  : list output * result unit :=
  match ls with
  | [] => ([], Ok tt)
  | Err e :: _ => ([], Err e)
  | Ok line :: rest =>
      let '(o, r) := print_lines ex rest in
      (Stdout (as_bytes (ex line) ++ [10%Z])%list :: o, r)
  end.

(** The [Fields] loop: [fields.join(str::from_utf8(&[config.delimiter])?)]. *)
Fixpoint print_records (delim : Z) (field_pos : PositionList)
  (records : list (result (list string))) : list output * result unit :=
  match records with
  | [] => ([], Ok tt)
  | Err e :: _ => ([], Err e)
  | Ok record :: rest =>
      let fields := extract_fields record field_pos in
      match from_utf8 [delim] with
      | Err e => ([], Err e)
      | Ok _ =>
          let sep := string_of_bytes [delim] in
          let '(o, r) := print_records delim field_pos rest in
          (Stdout (bytes_of_string (String.concat sep fields) ++ [10%Z])%list :: o, r)
      end
  end.

Section Run.

(** The csv crate's [ReaderBuilder::new().has_headers(false).delimiter(d)]
    reader: the records it reads from a content, or the message of a
    [csv::Error]. *)
Variable read_records : Z -> list Z -> list (result (list string)).
Variable fs : string -> result (list Z).
(** Each ["-"] opens a new [BufReader] over [io::stdin()]; [stdin k] is
    what the reader opened for the [k]-th ["-"] (from 0) reads. The
    environment decides it: nothing more from a pipe at its end, new input
    from a terminal. *)
Variable stdin : nat -> list Z.

(** The [match &config.extract] for one opened file. *)
Definition process (config : Config) (file : list Z) : list output * result unit :=
  match extract config with
  | Fields field_pos =>
      print_records (delimiter config) field_pos (read_records (delimiter config) file)
  | Bytes byte_pos => print_lines (fun line => extract_bytes line byte_pos) (lines file)
  | Chars char_pos => print_lines (fun line => extract_chars line char_pos) (lines file)
  end.

(** The [for filename in config.files] loop; [k] readers over standard
    input were opened before. *)
Fixpoint run_files (config : Config) (k : nat) (filenames : list string)
  : list output * result unit :=
  match filenames with
  | [] => ([], Ok tt)
  | filename :: rest =>
      match open fs (stdin k) filename with
      | Err e =>
          let '(o, r) := run_files config k rest in
          (Stderr (filename ++ ": " ++ e) :: o, r)
      | Ok file =>
          let '(o1, r1) := process config file in
          match r1 with
          | Err m => (o1, Err m)
          | Ok _ =>
              let k' := if String.eqb filename "-" then S k else k in
              let '(o2, r2) := run_files config k' rest in
              ((o1 ++ o2)%list, r2)
          end
      end
  end.

Definition run (config : Config) : list output * result unit :=
  run_files config 0 (files config).

End Run.

(** The number of readers over standard input that a list of file names
    opens: one per ["-"]. *)
Fixpoint stdin_opened (filenames : list string) : nat :=
  match filenames with
  | [] => 0
  | f :: rest => ((if String.eqb f "-" then 1 else 0) + stdin_opened rest)%nat
  end.

(** A line of a text file without its terminator: [char]s, no ['\n']. *)
Definition newline_free (line : list Z) : bool :=
  forallb is_scalar line && negb (existsb (Z.eqb 10) line).

(** A line that a ['\n'] ended, as [lines()] gives it back: a ['\r'] just
    before the newline goes too, so ["\r\n"] ends a line as well. *)
Definition trim_cr (line : list Z) : list Z :=
  if (last line 0 =? 13)%Z then removelast line else line.

(** The bytes of a text file: lines each ended by ['\n'], then a last line
    with no newline (empty when the file ends with one). *)
Definition text_file (ls : list (list Z)) (tail : list Z) : list Z :=
  (flat_map (fun line => as_bytes line ++ [10%Z]) ls ++ as_bytes tail)%list.

(** The lines of that file as [lines()] reads them. *)
Definition text_lines (ls : list (list Z)) (tail : list Z) : list (list Z) :=
  (map trim_cr ls ++ match tail with [] => [] | _ :: _ => [tail] end)%list.


Example parse_pos_ex1 : parse_pos "1,7,3-5" =
  Ok [mk_range 0 1; mk_range 6 7; mk_range 2 5].
Proof. reflexivity. Qed.
Example parse_pos_ex2 : parse_pos "0001-03" = Ok [mk_range 0 3].
Proof. reflexivity. Qed.
Example parse_pos_ex3 : parse_pos "1-1" = Err "First number in range (1) must be lower than second number (1)".
Proof. reflexivity. Qed.
Example parse_pos_ex4 : parse_pos "1-+2" = Err (value_error "1-+2").
Proof. reflexivity. Qed.
Example parse_pos_ex5 : parse_pos "2,1-1-1" = Err (value_error "2,1-1-1").
Proof. reflexivity. Qed.
Example parse_pos_ex6 : parse_pos "1,18446744073709551616" = Err (value_error "18446744073709551616").
Proof. vm_compute. reflexivity. Qed.
Example parse_pos_ex7 : parse_pos "18446744073709551615" = Ok [mk_range 18446744073709551614 18446744073709551615].
Proof. vm_compute. reflexivity. Qed.
Example parse_pos_ex8 : parse_pos "15,19-20" = Ok [mk_range 14 15; mk_range 18 20].
Proof. reflexivity. Qed.

Example extract_bytes_ex1 : extract_bytes [0xC9%Z; 98%Z; 99%Z] [mk_range 0 1] = [0xFFFD%Z].
Proof. reflexivity. Qed.
Example extract_bytes_ex2 : extract_bytes [0xC9%Z; 98%Z; 99%Z] [mk_range 0 2; mk_range 5 6] = [0xC9%Z].
Proof. reflexivity. Qed.
Example extract_bytes_ex3 : extract_bytes [0x20AC%Z] [mk_range 1 3] = [0xFFFD%Z; 0xFFFD%Z].
Proof. reflexivity. Qed.
Example extract_bytes_ex4 : extract_bytes [0x1F600%Z; 0x20AC%Z] [mk_range 0 7] = [0x1F600%Z; 0x20AC%Z].
Proof. reflexivity. Qed.
Example extract_bytes_ex5 : extract_bytes [0x1F600%Z] [mk_range 0 3] = [0xFFFD%Z].
Proof. reflexivity. Qed.
Example extract_chars_ex1 : extract_chars [0xC9%Z; 98%Z; 99%Z] [mk_range 2 3; mk_range 1 2] = [99%Z; 98%Z].
Proof. reflexivity. Qed.
Example extract_fields_ex1 : extract_fields ["Captain"; "Sham"; "12345"] [mk_range 0 1; mk_range 3 4] = ["Captain"].
Proof. reflexivity. Qed.

(** ** UTF-8 decoding of valid encodings *)

Module Utf8.
Open Scope Z_scope.

Lemma lor_shift_add (a b k : Z) :
  0 <= a -> 0 <= k -> 0 <= b < 2 ^ k ->
  Z.lor (a * 2 ^ k) b = a * 2 ^ k + b.
Proof.
  intros Ha Hk Hb.
  assert (Hland : Z.land (a * 2 ^ k) b = 0).
  { apply Z.bits_inj'. intros n Hn. rewrite Z.land_spec, Z.bits_0.
    destruct (Z.lt_ge_cases n k) as [Hlt | Hge].
    - rewrite <- Z.shiftl_mul_pow2 by lia.
      rewrite Z.shiftl_spec_low by lia. reflexivity.
    - assert (Hb' : Z.testbit b n = false).
      { apply Z.testbit_false; [lia|].
        rewrite (Z.div_small b (2 ^ n)); [reflexivity|].
        split; [lia|]. apply Z.lt_le_trans with (2 ^ k); [lia|].
        apply Z.pow_le_mono_r; lia. }
      rewrite Hb'. apply andb_false_r. }
  rewrite <- Z.lxor_lor by exact Hland.
  symmetry. apply Z.add_nocarry_lxor. exact Hland.
Qed.

Lemma land_mask (a k : Z) : 0 <= k -> Z.land a (Z.ones k) = a mod 2 ^ k.
Proof. intros Hk. apply Z.land_ones. exact Hk. Qed.

Ltac to_arith :=
  repeat first
    [ rewrite Z.shiftr_div_pow2 by lia
    | rewrite Z.shiftl_mul_pow2 by lia
    | rewrite land_mask by lia
    | match goal with
      | |- context [Z.land ?x 31] => change 31 with (Z.ones 5); rewrite land_mask by lia
      | |- context [Z.land ?x 63] => change 63 with (Z.ones 6); rewrite land_mask by lia
      | |- context [Z.land ?x 15] => change 15 with (Z.ones 4); rewrite land_mask by lia
      | |- context [Z.land ?x 7] => change 7 with (Z.ones 3); rewrite land_mask by lia
      end ].

Ltac pow_consts :=
  change (2 ^ 3) with 8 in *; change (2 ^ 4) with 16 in *;
  change (2 ^ 5) with 32 in *; change (2 ^ 6) with 64 in *;
  change (2 ^ 12) with 4096 in *; change (2 ^ 18) with 262144 in *.

Ltac zbool :=
  repeat match goal with
  | |- context [?a <? ?b] => destruct (Z.ltb_spec a b); try lia
  | |- context [?a =? ?b] => destruct (Z.eqb_spec a b); try lia
  | |- context [?a <=? ?b] => destruct (Z.leb_spec a b); try lia
  end.

(** Tagging a payload: [payload | TAG] with the payload below the tag's bits. *)
Lemma tag_add (tag x k : Z) :
  0 <= tag -> 0 <= k -> 0 <= x < 2 ^ k -> Z.lor x (tag * 2 ^ k) = tag * 2 ^ k + x.
Proof. intros. rewrite Z.lor_comm. apply lor_shift_add; lia. Qed.

Lemma encode_two (c : Z) :
  0x80 <= c < 0x800 -> encode_utf8 c = [192 + c / 64; 128 + c mod 64].
Proof.
  intros Hc. unfold encode_utf8.
  destruct (Z.ltb_spec c 0x80); [lia|]. destruct (Z.ltb_spec c 0x800); [|lia].
  change 0xC0 with (6 * 2 ^ 5). change 0x80 with (2 * 2 ^ 6).
  to_arith. rewrite !tag_add; pow_consts;
    try (Z.div_mod_to_equations; lia).
  rewrite (Z.mod_small (c / 64) 32) by (Z.div_mod_to_equations; lia).
  reflexivity.
Qed.

Lemma lossy_two (q r : Z) (rest : list Z) :
  2 <= q < 32 -> 0 <= r < 64 ->
  from_utf8_lossy ((192 + q) :: (128 + r) :: rest) = (64 * q + r) :: from_utf8_lossy rest.
Proof.
  intros Hq Hr. cbn [from_utf8_lossy].
  unfold utf8_char_width, not_cont, as_i8. zbool.
  f_equal. unfold decode2.
  change 0x3F with (Z.ones 6). change 0x1F with (Z.ones 5).
  rewrite !land_mask by lia. rewrite Z.shiftl_mul_pow2 by lia.
  rewrite lor_shift_add; pow_consts; try (Z.div_mod_to_equations; lia).
Qed.

Lemma encode_three (c : Z) :
  0x800 <= c < 0x10000 ->
  encode_utf8 c = [224 + c / 4096; 128 + (c / 64) mod 64; 128 + c mod 64].
Proof.
  intros Hc. unfold encode_utf8.
  destruct (Z.ltb_spec c 0x80); [lia|]. destruct (Z.ltb_spec c 0x800); [lia|].
  destruct (Z.ltb_spec c 0x10000); [|lia].
  change 0xE0 with (14 * 2 ^ 4). change 0x80 with (2 * 2 ^ 6).
  to_arith. rewrite !tag_add; pow_consts;
    try (Z.div_mod_to_equations; lia).
  rewrite (Z.mod_small (c / 4096) 16) by (Z.div_mod_to_equations; lia).
  reflexivity.
Qed.

Lemma decode3_val (h m l : Z) :
  0 <= h < 16 -> 0 <= m < 64 -> 0 <= l < 64 ->
  decode3 (224 + h) (128 + m) (128 + l) = 4096 * h + 64 * m + l.
Proof.
  intros Hh Hm Hl. unfold decode3.
  change 0x3F with (Z.ones 6). change 0x0F with (Z.ones 4).
  rewrite !land_mask by lia. rewrite !Z.shiftl_mul_pow2 by lia.
  rewrite (lor_shift_add ((128 + m) mod 2 ^ 6) ((128 + l) mod 2 ^ 6) 6)
    by (pow_consts; Z.div_mod_to_equations; lia).
  rewrite lor_shift_add by (pow_consts; Z.div_mod_to_equations; lia).
  pow_consts. Z.div_mod_to_equations; lia.
Qed.

Lemma lossy_three (h m l : Z) (rest : list Z) :
  0 <= h < 16 -> 0 <= m < 64 -> 0 <= l < 64 ->
  0x800 <= 4096 * h + 64 * m + l ->
  ~ (0xD800 <= 4096 * h + 64 * m + l <= 0xDFFF) ->
  from_utf8_lossy ((224 + h) :: (128 + m) :: (128 + l) :: rest) =
  (4096 * h + 64 * m + l) :: from_utf8_lossy rest.
Proof.
  intros Hh Hm Hl Hlo Hsur. cbn [from_utf8_lossy].
  rewrite decode3_val by lia.
  unfold utf8_char_width, not_cont, as_i8, second_ok3, in_range.
  zbool; cbn [andb orb negb]; zbool; reflexivity.
Qed.

Lemma encode_four (c : Z) :
  0x10000 <= c <= 0x10FFFF ->
  encode_utf8 c = [240 + c / 262144; 128 + (c / 4096) mod 64;
                   128 + (c / 64) mod 64; 128 + c mod 64].
Proof.
  intros Hc. unfold encode_utf8.
  destruct (Z.ltb_spec c 0x80); [lia|]. destruct (Z.ltb_spec c 0x800); [lia|].
  destruct (Z.ltb_spec c 0x10000); [lia|].
  change 0xF0 with (30 * 2 ^ 3). change 0x80 with (2 * 2 ^ 6).
  to_arith. rewrite !tag_add; pow_consts;
    try (Z.div_mod_to_equations; lia).
  rewrite (Z.mod_small (c / 262144) 8) by (Z.div_mod_to_equations; lia).
  reflexivity.
Qed.

Lemma decode4_val (h a b d : Z) :
  0 <= h < 8 -> 0 <= a < 64 -> 0 <= b < 64 -> 0 <= d < 64 ->
  decode4 (240 + h) (128 + a) (128 + b) (128 + d) =
  262144 * h + 4096 * a + 64 * b + d.
Proof.
  intros Hh Ha Hb Hd. unfold decode4.
  change 0x3F with (Z.ones 6). change 0x07 with (Z.ones 3).
  rewrite !land_mask by lia. rewrite !Z.shiftl_mul_pow2 by lia.
  rewrite (lor_shift_add ((128 + b) mod 2 ^ 6) ((128 + d) mod 2 ^ 6) 6)
    by (pow_consts; Z.div_mod_to_equations; lia).
  rewrite (lor_shift_add ((128 + a) mod 2 ^ 6) _ 12)
    by (pow_consts; Z.div_mod_to_equations; lia).
  rewrite lor_shift_add by (pow_consts; Z.div_mod_to_equations; lia).
  pow_consts. Z.div_mod_to_equations; lia.
Qed.

Lemma lossy_four (h a b d : Z) (rest : list Z) :
  0 <= h < 8 -> 0 <= a < 64 -> 0 <= b < 64 -> 0 <= d < 64 ->
  0x10000 <= 262144 * h + 4096 * a + 64 * b + d <= 0x10FFFF ->
  from_utf8_lossy ((240 + h) :: (128 + a) :: (128 + b) :: (128 + d) :: rest) =
  (262144 * h + 4096 * a + 64 * b + d) :: from_utf8_lossy rest.
Proof.
  intros Hh Ha Hb Hd Hv. cbn [from_utf8_lossy].
  rewrite decode4_val by lia.
  unfold utf8_char_width, not_cont, as_i8, second_ok4, in_range.
  zbool; cbn [andb orb negb]; zbool; reflexivity.
Qed.

Lemma lossy_encode (c : Z) (rest : list Z) :
  is_scalar c = true ->
  from_utf8_lossy (encode_utf8 c ++ rest) = c :: from_utf8_lossy rest.
Proof.
  unfold is_scalar. intros Hc.
  apply andb_prop in Hc as [Hc Hsur]. apply andb_prop in Hc as [H0 H1].
  apply Z.leb_le in H0. apply Z.leb_le in H1. apply negb_true_iff in Hsur.
  destruct (Z.ltb_spec c 0x80) as [Ha | Ha].
  { unfold encode_utf8. destruct (Z.ltb_spec c 0x80); [|lia]. cbn [app from_utf8_lossy].
    destruct (Z.ltb_spec c 0x80); [reflexivity | lia]. }
  destruct (Z.ltb_spec c 0x800) as [Hb | Hb].
  { rewrite encode_two by lia. cbn [app].
    rewrite lossy_two by (Z.div_mod_to_equations; lia).
    f_equal. Z.div_mod_to_equations; lia. }
  destruct (Z.ltb_spec c 0x10000) as [Hd | Hd].
  { rewrite encode_three by lia. cbn [app].
    assert (Hsur' : ~ (0xD800 <= c <= 0xDFFF)).
    { intros [Hx Hy]. apply Z.leb_le in Hx. apply Z.leb_le in Hy.
      rewrite Hx, Hy in Hsur. discriminate. }
    rewrite lossy_three by (Z.div_mod_to_equations; lia).
    f_equal. Z.div_mod_to_equations; lia. }
  rewrite encode_four by lia. cbn [app].
  rewrite lossy_four by (Z.div_mod_to_equations; lia).
  f_equal. Z.div_mod_to_equations; lia.
Qed.

(** The bytes of a [&str] decode back to its [char]s. *)
Lemma lossy_as_bytes (cs : list Z) :
  forallb is_scalar cs = true -> from_utf8_lossy (as_bytes cs) = cs.
Proof.
  induction cs as [|c cs IH]; intros H; [reflexivity|].
  simpl in H. apply andb_prop in H as [Hc Hcs].
  unfold as_bytes. cbn [flat_map]. rewrite lossy_encode by exact Hc.
  f_equal. apply IH. exact Hcs.
Qed.

End Utf8.

(** ** The extractors: in-bounds slices, in selection order *)

Module Extraction.

Lemma skipn_nth_error {A : Type} (xs : list A) (s : nat) :
  skipn s xs = match nth_error xs s with
               | Some x => x :: skipn (S s) xs
               | None => []
               end.
Proof.
  revert s; induction xs as [|a xs IH]; intros [|s]; simpl; auto.
Qed.

Lemma filter_map_nth_seq {A : Type} (xs : list A) (s k : nat) :
  filter_map (nth_error xs) (seq s k) = firstn k (skipn s xs).
Proof.
  revert s; induction k as [|k IH]; intros s; [reflexivity|].
  cbn [seq filter_map]. rewrite (skipn_nth_error xs s).
  destruct (nth_error xs s) eqn:E.
  - rewrite IH. reflexivity.
  - rewrite IH. apply nth_error_None in E.
    rewrite skipn_all2 by lia. destruct k; reflexivity.
Qed.

Lemma filter_map_range {A : Type} (xs : list A) (rs : PositionList) :
  flat_map (fun r => filter_map (fun i => nth_error xs i) (range_indices r)) rs =
  flat_map (in_bounds_slice xs) rs.
Proof.
  apply flat_map_ext. intros r. unfold range_indices, in_bounds_slice.
  apply filter_map_nth_seq.
Qed.

Lemma in_bounds_slice_past_end {A : Type} (xs : list A) (r : Range) :
  (List.length xs <= N.to_nat (range_start r))%nat -> in_bounds_slice xs r = [].
Proof.
  intros H. unfold in_bounds_slice. rewrite skipn_all2 by exact H.
  apply firstn_nil.
Qed.

End Extraction.

(** ** The parser: splitting, digit parsing, per-part results *)

Module Parse.

(** *** [split] *)

Lemma split_on_nonempty (c : ascii) (s : string) : split_on c s <> [].
Proof.
  destruct s as [|a s']; simpl; [discriminate|].
  destruct (Ascii.eqb a c); [discriminate|].
  destruct (split_on c s'); discriminate.
Qed.

Lemma split_on_app (c : ascii) (a b : string) :
  split_on c (a ++ String c b) = (split_on c a ++ split_on c b)%list.
Proof.
  induction a as [|x a IH]; simpl.
  - rewrite Ascii.eqb_refl. reflexivity.
  - rewrite IH. destruct (Ascii.eqb x c); [reflexivity|].
    destruct (split_on c a) eqn:E; [exfalso; exact (split_on_nonempty c a E)|].
    reflexivity.
Qed.

Lemma is_digit_sep (c : ascii) :
  is_digit c = true ->
  c <> ","%char /\ c <> "-"%char /\ c <> "+"%char.
Proof. intros H. repeat split; intros ->; discriminate H. Qed.

Lemma split_on_digits (c : ascii) (s : string) :
  all_digits s = true -> is_digit c = false -> split_on c s = [s].
Proof.
  intros Hs Hc. induction s as [|a s IH]; [reflexivity|].
  simpl in Hs. apply andb_prop in Hs as [Ha Hs]. simpl.
  rewrite (IH Hs). destruct (Ascii.eqb_spec a c) as [->|_]; [congruence|].
  reflexivity.
Qed.

(** *** The loop over the parts *)

Lemma parse_parts_app (range : string) (ps1 ps2 : list string) (acc : PositionList) :
  parse_parts range (ps1 ++ ps2) acc =
  match parse_parts range ps1 acc with
  | Ok l => parse_parts range ps2 l
  | Err m => Err m
  end.
Proof.
  revert acc; induction ps1 as [|p ps1 IH]; intros acc; [reflexivity|].
  simpl. destruct (parse_part range p); [apply IH | reflexivity].
Qed.

Lemma parse_parts_ok (range : string) (ps : list string) (acc l : PositionList) :
  parse_parts range ps acc = Ok l ->
  exists rs, Forall2 (fun p r => parse_part range p = Ok r) ps rs /\ l = (acc ++ rs)%list.
Proof.
  revert acc; induction ps as [|p ps IH]; simpl; intros acc H.
  - injection H as <-. exists []. split; [constructor | symmetry; apply app_nil_r].
  - destruct (parse_part range p) as [r|m] eqn:E; [|discriminate].
    apply IH in H as [rs [HF ->]]. exists (r :: rs). split.
    + constructor; assumption.
    + rewrite <- app_assoc. reflexivity.
Qed.

Lemma parse_parts_of_Forall2 (range : string) (ps : list string) (rs acc : PositionList) :
  Forall2 (fun p r => parse_part range p = Ok r) ps rs ->
  parse_parts range ps acc = Ok (acc ++ rs)%list.
Proof.
  intros HF. revert acc; induction HF as [|p r ps rs Hp HF IH]; intros acc; simpl.
  - rewrite app_nil_r. reflexivity.
  - rewrite Hp, IH, <- app_assoc. reflexivity.
Qed.

Lemma parse_parts_all_ok (range : string) (ps : list string) (acc : PositionList) :
  Forall (part_ok range) ps -> exists l, parse_parts range ps acc = Ok l.
Proof.
  intros HF. revert acc; induction HF as [|p ps [r Hr] HF IH]; intros acc; simpl.
  - eexists; reflexivity.
  - rewrite Hr. apply IH.
Qed.

Lemma parse_pos_ok (s : string) (l : PositionList) :
  parse_pos s = Ok l ->
  Forall2 (fun p r => parse_part s p = Ok r) (split_on ","%char s) l.
Proof.
  unfold parse_pos. destruct (String.eqb s EmptyString); [discriminate|].
  intros H. apply parse_parts_ok in H as [rs [HF ->]]. exact HF.
Qed.

(** The first part that fails decides the error. *)
Lemma parse_pos_first_err (s P : string) (pre post : list string) (m : string) :
  P <> EmptyString ->
  split_on ","%char s = (pre ++ P :: post)%list ->
  Forall (part_ok s) pre ->
  parse_part s P = Err m ->
  parse_pos s = Err m.
Proof.
  intros HP Hsplit Hpre HPe. unfold parse_pos.
  destruct (String.eqb_spec s EmptyString) as [->|_].
  { simpl in Hsplit. destruct pre as [|x [|y pre]]; simpl in Hsplit;
      injection Hsplit; intros; subst; try congruence; discriminate. }
  rewrite Hsplit, parse_parts_app.
  destruct (parse_parts_all_ok s pre [] Hpre) as [l Hl]. rewrite Hl.
  simpl. rewrite HPe. reflexivity.
Qed.

(** *** [str::parse::<usize>] on digit strings *)

Lemma to_digit_some (c : ascii) (d : N) : to_digit c = Some d -> (d < 10)%N.
Proof.
  unfold to_digit. destruct (_ && _)%bool eqn:E; [|discriminate].
  apply andb_prop in E as [E1 E2]. apply N.leb_le in E1. apply N.leb_le in E2.
  intros H; injection H as <-. lia.
Qed.

Lemma parse_digits_bound (s : string) (acc n : N) :
  parse_digits acc s = Some n -> (acc <= usize_max)%N ->
  (n <= usize_max)%N /\ n = dec_value_from acc s.
Proof.
  revert acc; induction s as [|c s IH]; intros acc H Hacc; simpl in H.
  - injection H as <-. split; [exact Hacc | reflexivity].
  - destruct (to_digit c) as [x|] eqn:Ex; [|discriminate].
    destruct (N.ltb_spec usize_max (acc * 10)); [discriminate|].
    destruct (N.ltb_spec usize_max (acc * 10 + x)); [discriminate|].
    simpl. rewrite Ex. apply IH; [exact H | lia].
Qed.

Lemma dec_value_from_mono (s : string) (acc : N) : (acc <= dec_value_from acc s)%N.
Proof.
  revert acc; induction s as [|c s IH]; intros acc; simpl; [lia|].
  specialize (IH (acc * 10 + match to_digit c with Some d => d | None => 0 end)%N). lia.
Qed.

Lemma parse_digits_value (s : string) (acc : N) :
  all_digits s = true -> (dec_value_from acc s <= usize_max)%N ->
  parse_digits acc s = Some (dec_value_from acc s).
Proof.
  revert acc; induction s as [|c s IH]; intros acc Hd Hv; [reflexivity|].
  simpl in Hd. apply andb_prop in Hd as [Hc Hd]. unfold is_digit in Hc.
  simpl in Hv |- *. destruct (to_digit c) as [x|]; [|discriminate].
  pose proof (dec_value_from_mono s (acc * 10 + x)).
  destruct (N.ltb_spec usize_max (acc * 10)); [lia|].
  destruct (N.ltb_spec usize_max (acc * 10 + x)); [lia|].
  apply IH; assumption.
Qed.

Lemma parse_usize_digits (s : string) :
  all_digits s = true -> s <> EmptyString -> parse_usize s = parse_digits 0 s.
Proof.
  intros Hd Hne. destruct s as [|c rest]; [congruence|].
  simpl in Hd. apply andb_prop in Hd as [Hc _].
  destruct (is_digit_sep c Hc) as [_ [Hm Hp]]. unfold parse_usize.
  destruct (Ascii.eqb_spec c "+"%char); [congruence|].
  destruct (Ascii.eqb_spec c "-"%char); [congruence|]. reflexivity.
Qed.

Lemma prefix_plus_digits (s : string) :
  all_digits s = true -> String.prefix "+" s = false.
Proof.
  intros Hd. destruct s as [|c rest]; [reflexivity|].
  simpl in Hd. apply andb_prop in Hd as [Hc _].
  destruct (is_digit_sep c Hc) as [_ [_ Hp]]. cbn [String.prefix].
  destruct (ascii_dec "+"%char c) as [E|_]; [congruence | reflexivity].
Qed.

Lemma parse_usize_bound (e : string) (b : N) :
  parse_usize e = Some b -> (b <= usize_max)%N.
Proof.
  unfold parse_usize. intros H.
  destruct e as [|c rest]; [discriminate|].
  assert (H0 : (0 <= usize_max)%N) by lia.
  destruct (Ascii.eqb c "+" || Ascii.eqb c "-")%bool.
  - destruct rest as [|c' rest']; [discriminate|].
    destruct (Ascii.eqb c "+");
      apply (parse_digits_bound _ 0 b H H0).
  - apply (parse_digits_bound _ 0 b H H0).
Qed.

Lemma parse_endpoint_ok (part e : string) (b : N) :
  parse_endpoint part e = Ok b ->
  b <> 0%N /\ (b <= usize_max)%N /\ parse_usize e = Some b.
Proof.
  unfold parse_endpoint. destruct (String.prefix "+" e); [discriminate|].
  destruct (parse_usize e) as [x|] eqn:E; [|discriminate].
  destruct (N.eqb_spec x 0); [discriminate|].
  intros H; injection H as <-. split; [assumption|].
  split; [apply (parse_usize_bound e); exact E | reflexivity].
Qed.

Lemma collect_bounds_ok (part : string) (es : list string) (bs : list N) :
  collect_bounds part es = Ok bs ->
  Forall2 (fun e b => parse_endpoint part e = Ok b) es bs.
Proof.
  revert bs; induction es as [|e es IH]; intros bs H; simpl in H.
  - injection H as <-. constructor.
  - destruct (parse_endpoint part e) as [b|m] eqn:Eb; [|discriminate].
    destruct (collect_bounds part es) as [bs'|m] eqn:Ebs; [|discriminate].
    injection H as <-. constructor; [exact Eb | apply IH; reflexivity].
Qed.

Lemma collect_bounds_err (part e : string) (es1 es2 : list string) (m : string) :
  Forall (endpoint_ok part) es1 -> parse_endpoint part e = Err m ->
  collect_bounds part (es1 ++ e :: es2) = Err m.
Proof.
  intros HF He. induction HF as [|x es1 [b Hb] HF IH]; simpl.
  - rewrite He. reflexivity.
  - rewrite Hb, IH. reflexivity.
Qed.

(** *** Decimal text of a bound, parsed back *)

Lemma to_digit_digit_char (d : N) : (d < 10)%N -> to_digit (digit_char d) = Some d.
Proof.
  intros Hd. unfold to_digit, digit_char.
  rewrite N_ascii_embedding by lia.
  destruct (N.leb_spec 48 (48 + d)); [|lia].
  destruct (N.leb_spec (48 + d) 57); [|lia].
  cbn [andb]. f_equal. lia.
Qed.

Lemma digits_aux_all_digits (f : nat) (n : N) (acc : string) :
  all_digits acc = true -> all_digits (digits_aux f n acc) = true.
Proof.
  revert n acc; induction f as [|f IH]; intros n acc Hacc; [exact Hacc|].
  simpl. assert (Hd : all_digits (String (digit_char (n mod 10)) acc) = true).
  { simpl. unfold is_digit. rewrite to_digit_digit_char by (apply N.mod_lt; lia).
    exact Hacc. }
  destruct (n <? 10)%N; [exact Hd | apply IH; exact Hd].
Qed.

Lemma digits_aux_nonempty (f : nat) (n : N) (acc : string) :
  acc <> EmptyString -> digits_aux f n acc <> EmptyString.
Proof.
  revert n acc; induction f as [|f IH]; intros n acc Hacc; [exact Hacc|].
  simpl. destruct (n <? 10)%N; [discriminate | apply IH; discriminate].
Qed.

Lemma digits_aux_parse (f : nat) (n : N) (acc : string) :
  (n < 10 ^ N.of_nat f)%N -> (n <= usize_max)%N ->
  parse_digits 0 (digits_aux f n acc) = parse_digits n acc.
Proof.
  revert n acc; induction f as [|f IH]; intros n acc Hf Hmax.
  - simpl in Hf. replace n with 0%N by lia. reflexivity.
  - rewrite Nat2N.inj_succ, N.pow_succ_r' in Hf.
    pose proof (N.mod_lt n 10 ltac:(lia)) as Hm.
    pose proof (N.div_mod n 10 ltac:(lia)) as Hdm.
    simpl digits_aux. destruct (N.ltb_spec n 10) as [Hlt|Hge].
    + simpl. rewrite to_digit_digit_char by exact Hm.
      rewrite N.mod_small in * by exact Hlt.
      repeat match goal with
      | |- context [(?a <? ?b)%N] => destruct (N.ltb_spec a b); [lia|]
      end.
      reflexivity.
    + rewrite IH.
      * simpl. rewrite to_digit_digit_char by exact Hm.
        remember (n / 10)%N as q eqn:Hq. remember (n mod 10)%N as r eqn:Hr.
        clear Hq Hr.
        destruct (N.ltb_spec usize_max (q * 10)); [lia|].
        destruct (N.ltb_spec usize_max (q * 10 + r)); [lia|].
        f_equal. lia.
      * apply N.Div0.div_lt_upper_bound; lia.
      * pose proof (N.Div0.div_le_upper_bound n 10 n ltac:(lia)). lia.
Qed.

Lemma N_to_dec_fuel (n : N) : (n < 10 ^ N.of_nat (S (N.to_nat (N.size n))))%N.
Proof.
  rewrite Nat2N.inj_succ, N2Nat.id.
  pose proof (N.size_gt n) as H.
  assert (H2 : (2 ^ N.size n <= 10 ^ N.size n)%N) by (apply N.pow_le_mono_l; lia).
  assert (H3 : (10 ^ N.size n <= 10 ^ N.succ (N.size n))%N)
    by (apply N.pow_le_mono_r; lia).
  lia.
Qed.

Lemma N_to_dec_digits (n : N) : all_digits (N_to_dec n) = true.
Proof. apply digits_aux_all_digits. reflexivity. Qed.

Lemma N_to_dec_nonempty (n : N) : N_to_dec n <> EmptyString.
Proof.
  unfold N_to_dec. simpl. destruct (n <? 10)%N; [discriminate|].
  apply digits_aux_nonempty. discriminate.
Qed.

Lemma parse_usize_N_to_dec (n : N) :
  (n <= usize_max)%N -> parse_usize (N_to_dec n) = Some n.
Proof.
  intros Hn. rewrite parse_usize_digits by (apply N_to_dec_digits || apply N_to_dec_nonempty).
  unfold N_to_dec. rewrite digits_aux_parse; [reflexivity | | exact Hn].
  apply N_to_dec_fuel.
Qed.

(** *** One part *)

Lemma Forall2_bounds (part : string) (es : list string) (bs : list N) :
  Forall2 (fun e b => parse_endpoint part e = Ok b) es bs ->
  Forall (fun b => b <> 0%N /\ (b <= usize_max)%N) bs.
Proof.
  induction 1 as [|e b es bs Hb _ IH]; constructor; [|exact IH].
  apply parse_endpoint_ok in Hb as [H1 [H2 _]]. split; assumption.
Qed.

(** A part that parses is [[L-1, L)] or [[L-1, U)] with [1 <= L < U],
    both bounds fitting in a [usize]. *)
Lemma parse_part_shape (range p : string) (r : Range) :
  parse_part range p = Ok r ->
  (exists L, (1 <= L <= usize_max)%N /\ r = mk_range (L - 1) L) \/
  (exists L U, (1 <= L)%N /\ (L < U)%N /\ (U <= usize_max)%N /\ r = mk_range (L - 1) U).
Proof.
  unfold parse_part. destruct (String.eqb p EmptyString); [discriminate|].
  destruct (2 <? List.length (split_on "-" p))%nat; [discriminate|].
  destruct (collect_bounds p (split_on "-" p)) as [bs|m] eqn:E; [|discriminate].
  apply collect_bounds_ok, Forall2_bounds in E.
  destruct bs as [|L [|U rest]]; cbn [nth List.length Nat.eqb].
  - discriminate.
  - inversion E as [|? ? [HL HLm] _]; subst. intros H; injection H as <-.
    left. exists L. split; [lia | reflexivity].
  - inversion E as [|? ? [HL HLm] E']; subst.
    inversion E' as [|? ? [HU HUm] _]; subst.
    destruct (N.eqb_spec U 0); [discriminate|].
    destruct (N.leb_spec U L); [discriminate|].
    intros Hr; injection Hr as <-. right. exists L, U. repeat split; lia.
Qed.

Lemma parse_endpoint_dec (part : string) (L : N) :
  (1 <= L <= usize_max)%N -> parse_endpoint part (N_to_dec L) = Ok L.
Proof.
  intros HL. unfold parse_endpoint.
  rewrite prefix_plus_digits by apply N_to_dec_digits.
  rewrite parse_usize_N_to_dec by lia.
  destruct (N.eqb_spec L 0); [lia | reflexivity].
Qed.

Lemma string_eqb_nonempty (s : string) : s <> EmptyString -> String.eqb s EmptyString = false.
Proof. intros H. destruct (String.eqb_spec s EmptyString); congruence. Qed.

Lemma parse_part_single (range : string) (L : N) :
  (1 <= L <= usize_max)%N ->
  parse_part range (N_to_dec L) = Ok (mk_range (L - 1) L).
Proof.
  intros HL. unfold parse_part.
  rewrite string_eqb_nonempty by apply N_to_dec_nonempty.
  rewrite (split_on_digits "-" (N_to_dec L)) by (apply N_to_dec_digits || reflexivity).
  cbn [List.length Nat.ltb Nat.leb collect_bounds].
  rewrite parse_endpoint_dec by exact HL. reflexivity.
Qed.

Lemma parse_part_pair (range : string) (L U : N) :
  (1 <= L <= usize_max)%N -> (1 <= U <= usize_max)%N ->
  parse_part range (N_to_dec L ++ "-" ++ N_to_dec U) =
  if (U <=? L)%N then Err (inverted_error L U) else Ok (mk_range (L - 1) U).
Proof.
  intros HL HU. unfold parse_part.
  change ("-" ++ N_to_dec U) with (String "-"%char (N_to_dec U)).
  rewrite string_eqb_nonempty.
  2:{ destruct (N_to_dec L); discriminate. }
  rewrite split_on_app.
  rewrite !(split_on_digits "-") by (apply N_to_dec_digits || reflexivity).
  cbn [List.length app Nat.ltb Nat.leb collect_bounds].
  rewrite !parse_endpoint_dec by assumption.
  cbn [nth List.length Nat.eqb].
  destruct (N.eqb_spec U 0); [lia|]. reflexivity.
Qed.

(** *** Strings without the separator *)

Lemma split_on_without (c : ascii) (s : string) :
  has_char c s = false -> split_on c s = [s].
Proof.
  induction s as [|a s IH]; intros H; [reflexivity|].
  simpl in H |- *. apply orb_false_iff in H as [Ha Hs].
  rewrite Ha, (IH Hs). reflexivity.
Qed.

Lemma has_char_app (c : ascii) (a b : string) :
  has_char c (a ++ b) = (has_char c a || has_char c b)%bool.
Proof.
  induction a as [|x a IH]; [reflexivity|]. simpl. rewrite IH. apply orb_assoc.
Qed.

Lemma has_char_digits (c : ascii) (s : string) :
  all_digits s = true -> is_digit c = false -> has_char c s = false.
Proof.
  intros Hs Hc. induction s as [|a s IH]; [reflexivity|].
  simpl in Hs. apply andb_prop in Hs as [Ha Hs]. simpl.
  rewrite (IH Hs). destruct (Ascii.eqb_spec a c) as [->|_]; [congruence|].
  reflexivity.
Qed.

Lemma split_on_concat (c : ascii) (xs : list string) :
  xs <> [] -> Forall (fun x => has_char c x = false) xs ->
  split_on c (String.concat (String c EmptyString) xs) = xs.
Proof.
  intros Hne HF. induction HF as [|x xs Hx HF IH]; [congruence|].
  destruct xs as [|y ys].
  - apply split_on_without. exact Hx.
  - change (String.concat (String c EmptyString) (x :: y :: ys))
      with (x ++ String c (String.concat (String c EmptyString) (y :: ys))).
    rewrite split_on_app, (split_on_without c x Hx), IH by discriminate.
    reflexivity.
Qed.

(** *** Accepted parts do not depend on the whole selection string *)

Lemma parse_part_range_irrel (r1 r2 p : string) (r : Range) :
  parse_part r1 p = Ok r -> parse_part r2 p = Ok r.
Proof.
  unfold parse_part. destruct (String.eqb p EmptyString); [discriminate|].
  destruct (2 <? List.length (split_on "-" p))%nat; [discriminate|].
  intros H; exact H.
Qed.

Lemma parse_parts_range_irrel (r1 r2 : string) (ps : list string) (l : PositionList) :
  parse_parts r1 ps [] = Ok l -> parse_parts r2 ps [] = Ok l.
Proof.
  intros H. apply parse_parts_ok in H as [rs [HF ->]].
  apply parse_parts_of_Forall2.
  eapply Forall2_impl; [|exact HF]. intros p r. apply parse_part_range_irrel.
Qed.

(** *** More than two ['-']-separated segments *)

Lemma parse_part_dashes (range P : string) :
  (2 < List.length (split_on "-" P))%nat -> parse_part range P = Err (value_error range).
Proof.
  intros H. unfold parse_part.
  destruct (String.eqb_spec P EmptyString) as [->|_]; [reflexivity|].
  apply Nat.ltb_lt in H. rewrite H. reflexivity.
Qed.

(** *** Endpoints of a part *)

Lemma parse_part_endpoints_ok (range p : string) (r : Range) :
  parse_part range p = Ok r -> Forall (endpoint_ok p) (split_on "-" p).
Proof.
  unfold parse_part. destruct (String.eqb p EmptyString); [discriminate|].
  destruct (2 <? List.length (split_on "-" p))%nat; [discriminate|].
  destruct (collect_bounds p (split_on "-" p)) as [bs|m] eqn:E; [|discriminate].
  intros _. apply collect_bounds_ok in E.
  induction E as [|e b es bs Hb _ IH]; constructor; [exists b; exact Hb | exact IH].
Qed.

(** The first endpoint of a part that the closure rejects decides the
    part's error. *)
Lemma parse_part_bad_endpoint (range P e : string) (es1 es2 : list string) (m : string) :
  e <> EmptyString ->
  (List.length (split_on "-" P) <= 2)%nat ->
  split_on "-" P = (es1 ++ e :: es2)%list ->
  Forall (endpoint_ok P) es1 ->
  parse_endpoint P e = Err m ->
  P <> EmptyString /\ parse_part range P = Err m.
Proof.
  intros He Hlen HP Hes1 Hbad.
  assert (HPne : P <> EmptyString).
  { intros ->. simpl in HP. destruct es1 as [|x [|y es1]]; simpl in HP.
    - injection HP as Hx _. congruence.
    - injection HP as _ Hy. discriminate Hy.
    - injection HP as _ Hy. discriminate Hy. }
  split; [exact HPne|]. unfold parse_part.
  rewrite string_eqb_nonempty by exact HPne.
  destruct (Nat.ltb_spec 2 (List.length (split_on "-" P))); [lia|].
  rewrite HP, (collect_bounds_err P e es1 es2 m Hes1 Hbad). reflexivity.
Qed.

Lemma parse_usize_all_digits (e : string) (b : N) :
  all_digits e = true -> e <> EmptyString -> parse_usize e = Some b ->
  b = dec_value e /\ (b <= usize_max)%N.
Proof.
  intros Hd Hne H. rewrite parse_usize_digits in H by assumption.
  apply parse_digits_bound in H as [H1 H2]; [|lia]. split; assumption.
Qed.

(** *** Writing a parsed range back *)

Lemma serialize_range_nonempty (r : Range) : serialize_range r <> EmptyString.
Proof.
  unfold serialize_range. destruct (_ =? _)%N; [apply N_to_dec_nonempty|].
  pose proof (N_to_dec_nonempty (range_start r + 1)) as H.
  destruct (N_to_dec (range_start r + 1)); [congruence | discriminate].
Qed.

Lemma serialize_range_ok (range p : string) (r : Range) :
  parse_part range p = Ok r ->
  (forall X, parse_part X (serialize_range r) = Ok r) /\
  has_char ","%char (serialize_range r) = false.
Proof.
  intros H. apply parse_part_shape in H as [[L [HL ->]] | [L [U [HL [HLU [HU ->]]]]]];
    unfold serialize_range; cbn [range_start range_end].
  - destruct (N.eqb_spec L (L - 1 + 1)); [|lia]. split.
    + intros X. apply parse_part_single. exact HL.
    + apply has_char_digits; [apply N_to_dec_digits | reflexivity].
  - destruct (N.eqb_spec U (L - 1 + 1)); [lia|].
    replace (L - 1 + 1)%N with L by lia. split.
    + intros X. rewrite parse_part_pair by lia.
      destruct (N.leb_spec U L); [lia | reflexivity].
    + rewrite !has_char_app.
      rewrite (has_char_digits _ (N_to_dec L)), (has_char_digits _ (N_to_dec U))
        by (apply N_to_dec_digits || reflexivity).
      reflexivity.
Qed.

Lemma Forall2_map_l {A B C : Type} (P : A -> B -> Prop) (f : C -> A) (g : C -> B) (l : list C) :
  Forall (fun x => P (f x) (g x)) l -> Forall2 P (map f l) (map g l).
Proof. induction 1; constructor; assumption. Qed.

Lemma Forall2_In_l {A B : Type} (P : A -> B -> Prop) (xs : list A) (ys : list B) (x : A) :
  Forall2 P xs ys -> In x xs -> exists y, P x y.
Proof.
  induction 1 as [|a b xs ys Hab _ IH]; intros Hin; [destruct Hin|].
  destruct Hin as [<- | Hin]; [exists b; exact Hab | apply IH; exact Hin].
Qed.

End Parse.

(** ** Auxiliary lemmas on the parser, the extractors, UTF-8 and the driver *)

Module Accept.
Import Parse.

Lemma parse_digits_all_digits (s : string) (acc n : N) :
  parse_digits acc s = Some n -> all_digits s = true.
Proof.
  revert acc; induction s as [|c s IH]; intros acc H; [reflexivity|].
  simpl in H |- *. destruct (to_digit c) as [x|] eqn:Ex; [|discriminate].
  unfold is_digit. rewrite Ex. cbn [andb].
  destruct (usize_max <? acc * 10)%N; [discriminate|].
  destruct (usize_max <? acc * 10 + x)%N; [discriminate|].
  exact (IH _ H).
Qed.

Lemma parse_usize_accepts (e : string) (b : N) :
  parse_usize e = Some b -> String.prefix "+" e = false ->
  all_digits e = true /\ e <> EmptyString.
Proof.
  intros H Hp. destruct e as [|c rest]; [discriminate|]. split; [|discriminate].
  unfold parse_usize in H.
  destruct (Ascii.eqb_spec c "+"%char) as [->|Hc].
  { cbn [String.prefix] in Hp.
    destruct (ascii_dec "+"%char "+"%char) as [_|n]; [destruct rest; discriminate Hp | congruence]. }
  cbn [orb] in H. destruct (Ascii.eqb c "-"%char).
  - destruct rest as [|c' rest']; [discriminate|].
    exact (parse_digits_all_digits _ _ _ H).
  - exact (parse_digits_all_digits _ _ _ H).
Qed.

Lemma endpoint_value (part e : string) (b : N) :
  parse_endpoint part e = Ok b ->
  all_digits e = true /\ e <> EmptyString /\ b = dec_value e /\ (1 <= b <= usize_max)%N.
Proof.
  unfold parse_endpoint. destruct (String.prefix "+" e) eqn:Hp; [discriminate|].
  destruct (parse_usize e) as [x|] eqn:E; [|discriminate].
  destruct (N.eqb_spec x 0); [discriminate|]. intros H; injection H as <-.
  destruct (parse_usize_accepts e x E Hp) as [Hd Hne].
  destruct (parse_usize_all_digits e x Hd Hne E) as [Hx Hle].
  repeat split; auto; lia.
Qed.

Lemma endpoint_digits (part e : string) :
  all_digits e = true -> e <> EmptyString -> (1 <= dec_value e <= usize_max)%N ->
  parse_endpoint part e = Ok (dec_value e).
Proof.
  intros Hd Hne Hv. unfold parse_endpoint.
  rewrite prefix_plus_digits by exact Hd.
  rewrite parse_usize_digits by assumption.
  rewrite parse_digits_value by (exact Hd || (unfold dec_value in Hv; lia)).
  fold (dec_value e). destruct (N.eqb_spec (dec_value e) 0); [lia | reflexivity].
Qed.

Lemma split_on_concat_inv (c : ascii) (s : string) :
  String.concat (String c EmptyString) (split_on c s) = s.
Proof.
  induction s as [|a s IH]; [reflexivity|]. simpl.
  destruct (split_on c s) as [|p ps] eqn:E; [exfalso; exact (split_on_nonempty c s E)|].
  destruct (Ascii.eqb_spec a c) as [->|_].
  - change (String.concat (String c EmptyString) (EmptyString :: p :: ps))
      with (EmptyString ++ String c EmptyString ++ String.concat (String c EmptyString) (p :: ps)).
    rewrite IH. reflexivity.
  - destruct ps as [|q qs]; simpl in IH |- *; rewrite IH; reflexivity.
Qed.

Lemma string_forallb_app (f : ascii -> bool) (a b : string) :
  string_forallb f (a ++ b) = string_forallb f a && string_forallb f b.
Proof.
  induction a as [|x a IH]; [reflexivity|]. simpl. rewrite IH. apply andb_assoc.
Qed.

Lemma string_forallb_concat (f : ascii -> bool) (c : ascii) (xs : list string) :
  f c = true -> Forall (fun x => string_forallb f x = true) xs ->
  string_forallb f (String.concat (String c EmptyString) xs) = true.
Proof.
  intros Hc HF. induction HF as [|x xs Hx HF IH]; [reflexivity|].
  destruct xs as [|y ys]; [exact Hx|].
  change (String.concat (String c EmptyString) (x :: y :: ys))
    with (x ++ String c (String.concat (String c EmptyString) (y :: ys))).
  rewrite string_forallb_app. cbn [string_forallb]. rewrite Hx, Hc, IH. reflexivity.
Qed.

Lemma accepted_nonempty (p : string) (r : Range) : accepted_part p r -> p <> EmptyString.
Proof.
  intros [[_ [Hne _]] | [a [b [-> _]]]]; [exact Hne|]. destruct a; discriminate.
Qed.

Lemma accepted_part_iff (range p : string) (r : Range) :
  parse_part range p = Ok r <-> accepted_part p r.
Proof.
  split.
  - unfold parse_part. intros H.
    destruct (String.eqb_spec p EmptyString) as [->|Hne]; [discriminate|].
    destruct (Nat.ltb_spec 2 (List.length (split_on "-" p))) as [_|Hlen]; [discriminate|].
    destruct (collect_bounds p (split_on "-" p)) as [bs|m] eqn:Ec; [|discriminate].
    apply collect_bounds_ok in Ec.
    pose proof (split_on_concat_inv "-" p) as Hcat.
    destruct (split_on "-" p) as [|e1 [|e2 [|e3 es]]] eqn:Es.
    + exfalso; exact (split_on_nonempty _ _ Es).
    + simpl in Hcat. subst e1.
      inversion Ec as [|x b1 y bs1 Hb1 Hrest]; subst. inversion Hrest; subst.
      simpl in H. injection H as <-.
      destruct (endpoint_value _ _ _ Hb1) as [Hd [Hne' [-> Hv]]].
      left. repeat split; auto; lia.
    + simpl in Hcat. subst p.
      inversion Ec as [|x b1 y bs1 Hb1 Hrest]; subst.
      inversion Hrest as [|x2 b2 y2 bs2 Hb2 Hrest2]; subst. inversion Hrest2; subst.
      simpl in H.
      destruct (endpoint_value _ _ _ Hb1) as [Hd1 [Hne1 [-> Hv1]]].
      destruct (endpoint_value _ _ _ Hb2) as [Hd2 [Hne2 [-> Hv2]]].
      destruct (N.eqb_spec (dec_value e2) 0); [discriminate|].
      destruct (N.leb_spec (dec_value e2) (dec_value e1)); [discriminate|].
      injection H as <-. right. exists e1, e2.
      split; [reflexivity|].
      repeat split; auto; lia.
    + simpl in Hlen. lia.
  - intros Hacc. pose proof (accepted_nonempty p r Hacc) as Hne.
    unfold parse_part. rewrite string_eqb_nonempty by exact Hne.
    destruct Hacc as [[Hd [_ [Hv ->]]] | [a [b [-> [Ha [Hane [Hb [Hbne [H1 [H2 [H3 ->]]]]]]]]]]].
    + rewrite (split_on_digits "-" p Hd eq_refl). cbn [collect_bounds].
      rewrite (endpoint_digits p p Hd Hne Hv). reflexivity.
    + rewrite split_on_app, (split_on_digits "-" a Ha eq_refl), (split_on_digits "-" b Hb eq_refl).
      cbn [app collect_bounds].
      rewrite (endpoint_digits _ a Ha Hane) by lia.
      rewrite (endpoint_digits _ b Hb Hbne) by lia.
      cbn [List.length Nat.ltb Nat.leb Nat.eqb nth].
      destruct (N.eqb_spec (dec_value b) 0); [lia|].
      destruct (N.leb_spec (dec_value b) (dec_value a)); [lia|]. reflexivity.
Qed.

Lemma parse_pos_iff (s : string) (l : PositionList) :
  parse_pos s = Ok l <-> Forall2 accepted_part (split_on ","%char s) l.
Proof.
  split.
  - intros H. apply parse_pos_ok in H.
    eapply Forall2_impl; [|exact H]. intros p r. apply accepted_part_iff.
  - intros H. unfold parse_pos.
    destruct (String.eqb_spec s EmptyString) as [->|Hne].
    + simpl in H. inversion H as [|p r ps rs Hp]; subst.
      exfalso. exact (accepted_nonempty _ _ Hp eq_refl).
    + apply (parse_parts_of_Forall2 s _ l []).
      eapply Forall2_impl; [|exact H]. intros p r. apply accepted_part_iff.
Qed.

Lemma collect_bounds_err_cases (part : string) (es : list string) (m : string) :
  collect_bounds part es = Err m -> m = value_error part \/ m = value_error "0".
Proof.
  induction es as [|e es IH]; simpl; [discriminate|].
  destruct (parse_endpoint part e) as [b|m'] eqn:Eb.
  - destruct (collect_bounds part es); [discriminate|]. intros H; injection H as <-. apply IH. reflexivity.
  - intros H; injection H as <-. unfold parse_endpoint in Eb.
    destruct (String.prefix "+" e); [injection Eb as <-; left; reflexivity|].
    destruct (parse_usize e) as [x|]; [|injection Eb as <-; left; reflexivity].
    destruct (x =? 0)%N; [injection Eb as <-; right; reflexivity | discriminate].
Qed.

Lemma parse_part_err_cases (range p m : string) :
  parse_part range p = Err m ->
  m = value_error range \/ m = value_error p \/ m = value_error "0" \/
  (exists L U, (1 <= U)%N /\ (U <= L)%N /\ (L <= usize_max)%N /\ m = inverted_error L U).
Proof.
  unfold parse_part.
  destruct (String.eqb p EmptyString); [intros H; injection H as <-; left; reflexivity|].
  destruct (Nat.ltb_spec 2 (List.length (split_on "-" p))) as [_|Hlen];
    [intros H; injection H as <-; left; reflexivity|].
  destruct (collect_bounds p (split_on "-" p)) as [bs|m'] eqn:Ec.
  2:{ intros H; injection H as <-. apply collect_bounds_err_cases in Ec as [->| ->]; auto. }
  apply collect_bounds_ok in Ec.
  pose proof (Forall2_length Ec) as Hl. pose proof (Forall2_bounds _ _ _ Ec) as HB.
  pose proof (split_on_nonempty "-" p) as Hne.
  destruct bs as [|x [|y [|z zs]]].
  - destruct (split_on "-" p); [congruence | discriminate].
  - discriminate.
  - cbn [List.length Nat.eqb nth]. inversion HB as [|? ? [Hx1 Hx2] HB']; subst.
    inversion HB' as [|? ? [Hy1 Hy2] _]; subst.
    destruct (y =? 0)%N; [intros Hm; injection Hm as <-; right; right; left; reflexivity|].
    destruct (N.leb_spec y x); [|discriminate]. intros Hm; injection Hm as <-.
    right; right; right. exists x, y. repeat split; lia.
  - simpl in Hl. lia.
Qed.

Lemma parse_parts_err (range : string) (ps : list string) (acc : PositionList) (m : string) :
  parse_parts range ps acc = Err m -> exists p, In p ps /\ parse_part range p = Err m.
Proof.
  revert acc; induction ps as [|p ps IH]; intros acc; simpl; [discriminate|].
  destruct (parse_part range p) as [r|m'] eqn:E.
  - intros H. destruct (IH _ H) as [q [Hq Hq']]. exists q. split; [right|]; assumption.
  - intros H; injection H as <-. exists p. split; [left; reflexivity | exact E].
Qed.

Lemma parse_pos_err_cases (s m : string) :
  parse_pos s = Err m ->
  (s = EmptyString /\ m = empty_list_error) \/
  (s <> EmptyString /\
   (m = value_error s \/ (exists p, In p (split_on ","%char s) /\ m = value_error p) \/
    m = value_error "0" \/
    (exists L U, (1 <= U)%N /\ (U <= L)%N /\ (L <= usize_max)%N /\ m = inverted_error L U))).
Proof.
  unfold parse_pos. destruct (String.eqb_spec s EmptyString) as [->|Hne].
  - intros H; injection H as <-. left; split; reflexivity.
  - intros H. right. split; [exact Hne|].
    apply parse_parts_err in H as [p [Hin Hp]].
    apply parse_part_err_cases in Hp as [H|[H|[H|H]]]; auto.
    right; left. exists p. split; assumption.
Qed.

(** A part made of two digit endpoints, leading zeros allowed. *)
Lemma parse_part_digit_pair (range a b : string) :
  all_digits a = true -> a <> EmptyString -> all_digits b = true -> b <> EmptyString ->
  (1 <= dec_value a <= usize_max)%N -> (1 <= dec_value b <= usize_max)%N ->
  parse_part range (a ++ String "-"%char b) =
  if (dec_value b <=? dec_value a)%N then Err (inverted_error (dec_value a) (dec_value b))
  else Ok (mk_range (dec_value a - 1) (dec_value b)).
Proof.
  intros Ha Hane Hb Hbne Hva Hvb. unfold parse_part.
  rewrite string_eqb_nonempty by (destruct a; [congruence | discriminate]).
  rewrite split_on_app, (split_on_digits "-" a Ha eq_refl), (split_on_digits "-" b Hb eq_refl).
  cbn [app collect_bounds].
  rewrite (endpoint_digits _ a Ha Hane Hva), (endpoint_digits _ b Hb Hbne Hvb).
  cbn [List.length Nat.ltb Nat.leb Nat.eqb nth].
  destruct (N.eqb_spec (dec_value b) 0); [lia|]. reflexivity.
Qed.

End Accept.


Module Slices.
Import Extraction.

Lemma filter_map_app {A B : Type} (f : A -> option B) (l1 l2 : list A) :
  filter_map f (l1 ++ l2) = (filter_map f l1 ++ filter_map f l2)%list.
Proof.
  induction l1 as [|x l1 IH]; [reflexivity|]. simpl. rewrite IH.
  destruct (f x); reflexivity.
Qed.

Lemma in_bounds_slice_indices {A : Type} (xs : list A) (r : Range) :
  in_bounds_slice xs r = filter_map (fun i => nth_error xs i) (range_indices r).
Proof. unfold in_bounds_slice, range_indices. symmetry. apply filter_map_nth_seq. Qed.

Lemma in_bounds_slice_merge {A : Type} (xs : list A) (a b c : N) :
  (a <= b)%N -> (b <= c)%N ->
  (in_bounds_slice xs (mk_range a b) ++ in_bounds_slice xs (mk_range b c))%list =
  in_bounds_slice xs (mk_range a c).
Proof.
  intros Hab Hbc. rewrite !in_bounds_slice_indices, <- filter_map_app.
  unfold range_indices; cbn [range_start range_end].
  replace (N.to_nat c - N.to_nat a)%nat
    with ((N.to_nat b - N.to_nat a) + (N.to_nat c - N.to_nat b))%nat by lia.
  rewrite seq_app. replace (N.to_nat a + (N.to_nat b - N.to_nat a))%nat with (N.to_nat b) by lia.
  reflexivity.
Qed.

Lemma flat_map_merge {A : Type} (xs : list A) (pre post : PositionList) (a b c : N) :
  (a <= b)%N -> (b <= c)%N ->
  flat_map (in_bounds_slice xs) (pre ++ mk_range a b :: mk_range b c :: post)%list =
  flat_map (in_bounds_slice xs) (pre ++ mk_range a c :: post)%list.
Proof.
  intros Hab Hbc. rewrite !flat_map_app. f_equal. cbn [flat_map].
  rewrite app_assoc, in_bounds_slice_merge by assumption. reflexivity.
Qed.

Lemma in_bounds_slice_length {A : Type} (xs : list A) (r : Range) :
  List.length (in_bounds_slice xs r) =
  (Nat.min (N.to_nat (range_end r)) (List.length xs) -
   Nat.min (N.to_nat (range_start r)) (List.length xs))%nat.
Proof.
  unfold in_bounds_slice. rewrite length_firstn, length_skipn. lia.
Qed.

Lemma in_bounds_slice_all {A : Type} (xs : list A) (n : N) :
  (List.length xs <= N.to_nat n)%nat -> in_bounds_slice xs (mk_range 0 n) = xs.
Proof.
  intros H. unfold in_bounds_slice; cbn [range_start range_end].
  rewrite Nat.sub_0_r. apply firstn_all2. exact H.
Qed.

Lemma in_firstn_in {A : Type} (n : nat) (xs : list A) (x : A) :
  In x (firstn n xs) -> In x xs.
Proof.
  revert xs; induction n as [|n IH]; intros [|y ys] H; simpl in H |- *; try tauto.
  destruct H as [H | H]; [left; exact H | right; apply IH; exact H].
Qed.

Lemma in_skipn_in {A : Type} (n : nat) (xs : list A) (x : A) :
  In x (skipn n xs) -> In x xs.
Proof.
  revert xs; induction n as [|n IH]; intros [|y ys] H; simpl in H |- *; try tauto.
  right; apply IH; exact H.
Qed.

Lemma Forall_in_bounds_slice {A : Type} (P : A -> Prop) (xs : list A) (rs : PositionList) :
  Forall P xs -> Forall P (flat_map (in_bounds_slice xs) rs).
Proof.
  intros H. apply Forall_forall. intros x Hx. apply in_flat_map in Hx as [r [_ Hr]].
  unfold in_bounds_slice in Hr. apply in_firstn_in, in_skipn_in in Hr.
  rewrite Forall_forall in H. apply H. exact Hr.
Qed.

End Slices.


Module Valid.
Import Utf8.
Open Scope Z_scope.

Lemma valid_two (off : N) (q r : Z) (rest : list Z) :
  2 <= q < 32 -> 0 <= r < 64 ->
  run_utf8_validation off ((192 + q) :: (128 + r) :: rest) = run_utf8_validation (off + 2) rest.
Proof.
  intros Hq Hr. cbn [run_utf8_validation].
  unfold utf8_char_width, not_cont, as_i8. zbool. reflexivity.
Qed.

Lemma valid_three (off : N) (h m l : Z) (rest : list Z) :
  0 <= h < 16 -> 0 <= m < 64 -> 0 <= l < 64 ->
  0x800 <= 4096 * h + 64 * m + l ->
  ~ (0xD800 <= 4096 * h + 64 * m + l <= 0xDFFF) ->
  run_utf8_validation off ((224 + h) :: (128 + m) :: (128 + l) :: rest) =
  run_utf8_validation (off + 3) rest.
Proof.
  intros Hh Hm Hl Hlo Hsur. cbn [run_utf8_validation].
  unfold utf8_char_width, not_cont, as_i8, second_ok3, in_range.
  zbool; cbn [andb orb negb]; zbool; reflexivity.
Qed.

Lemma valid_four (off : N) (h a b d : Z) (rest : list Z) :
  0 <= h < 8 -> 0 <= a < 64 -> 0 <= b < 64 -> 0 <= d < 64 ->
  0x10000 <= 262144 * h + 4096 * a + 64 * b + d <= 0x10FFFF ->
  run_utf8_validation off ((240 + h) :: (128 + a) :: (128 + b) :: (128 + d) :: rest) =
  run_utf8_validation (off + 4) rest.
Proof.
  intros Hh Ha Hb Hd Hv. cbn [run_utf8_validation].
  unfold utf8_char_width, not_cont, as_i8, second_ok4, in_range.
  zbool; cbn [andb orb negb]; zbool; reflexivity.
Qed.

Lemma scalar_facts (c : Z) :
  is_scalar c = true -> 0 <= c <= 0x10FFFF /\ ~ (0xD800 <= c <= 0xDFFF).
Proof.
  unfold is_scalar. intros Hc.
  apply andb_prop in Hc as [Hc Hsur]. apply andb_prop in Hc as [H0 H1].
  apply Z.leb_le in H0. apply Z.leb_le in H1. apply negb_true_iff in Hsur.
  split; [lia|]. intros [Hx Hy]. apply Z.leb_le in Hx. apply Z.leb_le in Hy.
  rewrite Hx, Hy in Hsur. discriminate.
Qed.

Lemma valid_encode (off : N) (c : Z) (rest : list Z) :
  is_scalar c = true ->
  exists off', run_utf8_validation off (encode_utf8 c ++ rest) = run_utf8_validation off' rest.
Proof.
  intros Hc. apply scalar_facts in Hc as [Hc Hsur].
  destruct (Z.ltb_spec c 0x80) as [Ha | Ha].
  { unfold encode_utf8. destruct (Z.ltb_spec c 0x80); [|lia]. cbn [app run_utf8_validation].
    destruct (Z.ltb_spec c 0x80); [eexists; reflexivity | lia]. }
  destruct (Z.ltb_spec c 0x800) as [Hb | Hb].
  { rewrite encode_two by lia. cbn [app].
    rewrite valid_two by (Z.div_mod_to_equations; lia). eexists; reflexivity. }
  destruct (Z.ltb_spec c 0x10000) as [Hd | Hd].
  { rewrite encode_three by lia. cbn [app].
    rewrite valid_three by (Z.div_mod_to_equations; lia). eexists; reflexivity. }
  rewrite encode_four by lia. cbn [app].
  rewrite valid_four by (Z.div_mod_to_equations; lia). eexists; reflexivity.
Qed.

Lemma valid_as_bytes (off : N) (cs rest : list Z) :
  forallb is_scalar cs = true ->
  exists off', run_utf8_validation off (as_bytes cs ++ rest) = run_utf8_validation off' rest.
Proof.
  revert off; induction cs as [|c cs IH]; intros off H; [exists off; reflexivity|].
  simpl in H. apply andb_prop in H as [Hc Hcs].
  unfold as_bytes. cbn [flat_map]. rewrite <- app_assoc.
  destruct (valid_encode off c (flat_map encode_utf8 cs ++ rest) Hc) as [o1 E1].
  rewrite E1. apply IH. exact Hcs.
Qed.

Lemma lossy_as_bytes_app (cs rest : list Z) :
  forallb is_scalar cs = true ->
  from_utf8_lossy (as_bytes cs ++ rest) = (cs ++ from_utf8_lossy rest)%list.
Proof.
  induction cs as [|c cs IH]; intros H; [reflexivity|].
  simpl in H. apply andb_prop in H as [Hc Hcs].
  unfold as_bytes. cbn [flat_map]. rewrite <- app_assoc.
  rewrite lossy_encode by exact Hc. cbn [app]. f_equal. apply IH. exact Hcs.
Qed.


Lemma as_bytes_ascii (cs : list Z) : Forall (fun c => 0 <= c < 0x80) cs -> as_bytes cs = cs.
Proof.
  induction 1 as [|c cs Hc _ IH]; [reflexivity|].
  unfold as_bytes in *. cbn [flat_map]. rewrite IH. unfold encode_utf8.
  destruct (Z.ltb_spec c 0x80); [reflexivity | lia].
Qed.

Lemma lossy_ascii (cs : list Z) : Forall (fun c => 0 <= c < 0x80) cs -> from_utf8_lossy cs = cs.
Proof.
  induction 1 as [|c cs Hc _ IH]; [reflexivity|]. cbn [from_utf8_lossy].
  destruct (Z.ltb_spec c 0x80); [rewrite IH; reflexivity | lia].
Qed.

(** A text line ended by a newline passes [from_utf8]. *)
Lemma from_utf8_line (line : list Z) :
  forallb is_scalar line = true ->
  from_utf8 (as_bytes line ++ [10]) = Ok (line ++ [10])%list.
Proof.
  intros H. unfold from_utf8.
  destruct (valid_as_bytes 0 line [10] H) as [o E]. rewrite E.
  cbn [run_utf8_validation]. destruct (Z.ltb_spec 10 0x80); [|lia].
  rewrite lossy_as_bytes_app by exact H. reflexivity.
Qed.

Lemma encode_high (c : Z) :
  is_scalar c = true -> 0x80 <= c -> Forall (fun b => 0x80 <= b) (encode_utf8 c).
Proof.
  intros Hc Hh. apply scalar_facts in Hc as [Hc _].
  destruct (Z.ltb_spec c 0x800).
  { rewrite encode_two by lia. repeat constructor; Z.div_mod_to_equations; lia. }
  destruct (Z.ltb_spec c 0x10000).
  { rewrite encode_three by lia. repeat constructor; Z.div_mod_to_equations; lia. }
  rewrite encode_four by lia. repeat constructor; Z.div_mod_to_equations; lia.
Qed.

Lemma encode_length (c : Z) :
  (1 <= List.length (encode_utf8 c))%nat /\
  (0x80 <= c -> (2 <= List.length (encode_utf8 c))%nat).
Proof.
  unfold encode_utf8.
  destruct (Z.ltb_spec c 0x80); [split; [simpl; lia | intros; lia]|].
  destruct (c <? 0x800); [|destruct (c <? 0x10000)]; split; simpl; lia.
Qed.

Lemma as_bytes_no_newline (line : list Z) :
  forallb is_scalar line = true -> existsb (Z.eqb 10) line = false ->
  existsb (Z.eqb 10) (as_bytes line) = false.
Proof.
  induction line as [|c cs IH]; intros Hs Hn; [reflexivity|].
  cbn [forallb existsb] in Hs, Hn. apply andb_prop in Hs as [Hc Hcs]. apply orb_false_iff in Hn as [Hc10 Hn].
  unfold as_bytes in *. cbn [flat_map]. rewrite existsb_app, IH by assumption.
  rewrite orb_false_r. apply Z.eqb_neq in Hc10.
  destruct (Z.ltb_spec c 0x80).
  - unfold encode_utf8. destruct (Z.ltb_spec c 0x80); [|lia]. cbn [existsb].
    destruct (Z.eqb_spec 10 c); [lia | reflexivity].
  - pose proof (encode_high c Hc ltac:(lia)) as HF.
    apply not_true_is_false. intros E. apply existsb_exists in E as [x [Hx Ex]].
    rewrite Forall_forall in HF. specialize (HF x Hx). apply Z.eqb_eq in Ex. lia.
Qed.

End Valid.

Module Cuts.
Import Utf8 Valid.
Open Scope Z_scope.
















End Cuts.


Module Reading.
Import Valid.

Lemma read_chunks_app (cur bs rest : list Z) :
  existsb (Z.eqb 10) bs = false ->
  read_chunks cur (bs ++ 10%Z :: rest) = (rev cur ++ bs ++ [10%Z])%list :: read_chunks [] rest.
Proof.
  revert cur; induction bs as [|b bs IH]; intros cur H.
  - reflexivity.
  - cbn [existsb] in H. apply orb_false_iff in H as [Hb H]. cbn [app read_chunks].
    rewrite Z.eqb_sym, Hb. rewrite IH by exact H. simpl. rewrite <- app_assoc. reflexivity.
Qed.

(** Input that ends without a newline is one last chunk. *)
Lemma read_chunks_noline (cur bs : list Z) :
  existsb (Z.eqb 10) bs = false -> (cur <> [] \/ bs <> []) ->
  read_chunks cur bs = [(rev cur ++ bs)%list].
Proof.
  revert cur; induction bs as [|b bs IH]; intros cur H Hne.
  - destruct cur as [|x cur]; [destruct Hne; congruence|].
    cbn [read_chunks]. rewrite app_nil_r. reflexivity.
  - cbn [existsb] in H. apply orb_false_iff in H as [Hb H]. cbn [read_chunks].
    rewrite Z.eqb_sym, Hb. rewrite IH by (exact H || (left; discriminate)).
    simpl. rewrite <- app_assoc. reflexivity.
Qed.

Lemma pop_if_last (c : Z) (s : list Z) :
  pop_if c (s ++ [c])%list = Some s.
Proof.
  unfold pop_if. rewrite rev_app_distr. simpl. rewrite Z.eqb_refl, rev_involutive. reflexivity.
Qed.

Lemma pop_if_other (c : Z) (s : list Z) : last s 0%Z <> c -> pop_if c s = None.
Proof.
  intros H. unfold pop_if. destruct (rev s) as [|x r] eqn:E; [reflexivity|].
  assert (Hs : s = (rev r ++ [x])%list).
  { rewrite <- (rev_involutive s), E. reflexivity. }
  rewrite Hs, last_last in H. destruct (Z.eqb_spec x c); [congruence | reflexivity].
Qed.

(** What [Lines::next] does to a chunk ended by a newline. *)
Lemma strip_newline_trim (line : list Z) :
  strip_newline (line ++ [10%Z])%list = trim_cr line.
Proof.
  unfold strip_newline, trim_cr. rewrite pop_if_last.
  induction line as [|x l _] using rev_ind; [reflexivity|].
  rewrite last_last, removelast_last. unfold pop_if. rewrite rev_app_distr. cbn [rev app].
  destruct (x =? 13)%Z; [rewrite rev_involutive|]; reflexivity.
Qed.

Lemma lines_text_prefix (ls : list (list Z)) (rest : list Z) :
  forallb newline_free ls = true ->
  lines (flat_map (fun line => as_bytes line ++ [10%Z]) ls ++ rest)%list =
  (map (fun line => Ok (trim_cr line)) ls ++ lines rest)%list.
Proof.
  intros H. unfold lines. induction ls as [|l ls IH]; [reflexivity|].
  cbn [forallb] in H. apply andb_prop in H as [Hl Hls].
  unfold newline_free in Hl. apply andb_prop in Hl as [Hs Hn]. apply negb_true_iff in Hn.
  cbn [flat_map]. rewrite <- !app_assoc. cbn [app].
  rewrite read_chunks_app by (apply as_bytes_no_newline; assumption).
  cbn [map rev app]. rewrite from_utf8_line by exact Hs.
  rewrite strip_newline_trim. f_equal. apply IH. exact Hls.
Qed.

Lemma lines_tail (tail : list Z) :
  newline_free tail = true ->
  lines (as_bytes tail) = match tail with [] => [] | _ :: _ => [Ok tail] end.
Proof.
  intros H. unfold newline_free in H. apply andb_prop in H as [Hs Hn]. apply negb_true_iff in Hn.
  destruct tail as [|c cs]; [reflexivity|].
  unfold lines. rewrite read_chunks_noline.
  2:{ apply as_bytes_no_newline; assumption. }
  2:{ right. unfold as_bytes. cbn [flat_map]. pose proof (proj1 (encode_length c)) as Hl.
      destruct (encode_utf8 c); [simpl in Hl; lia | discriminate]. }
  cbn [map rev app]. unfold from_utf8.
  destruct (valid_as_bytes 0 (c :: cs) [] Hs) as [o E]. rewrite app_nil_r in E. rewrite E.
  cbn [run_utf8_validation]. rewrite Utf8.lossy_as_bytes by exact Hs.
  unfold strip_newline. rewrite pop_if_other; [reflexivity|].
  destruct (exists_last (l:=c :: cs) ltac:(discriminate)) as [l' [a Ea]].
  rewrite Ea in Hn |- *. rewrite last_last. rewrite existsb_app in Hn.
  apply orb_false_iff in Hn as [_ Hn]. cbn [existsb] in Hn. rewrite orb_false_r in Hn.
  apply Z.eqb_neq in Hn. congruence.
Qed.

Lemma lines_text_file (ls : list (list Z)) (tail : list Z) :
  forallb newline_free ls = true -> newline_free tail = true ->
  lines (text_file ls tail) = map Ok (text_lines ls tail).
Proof.
  intros Hls Ht. unfold text_file, text_lines. rewrite lines_text_prefix by exact Hls.
  rewrite lines_tail by exact Ht. rewrite map_app, map_map. f_equal. destruct tail; reflexivity.
Qed.

(** A chunk that is not valid UTF-8, ended by a newline or by the end of
    the input. *)
Lemma lines_bad_chunk (bad term rest : list Z) :
  existsb (Z.eqb 10) bad = false -> (term = [10%Z] \/ (term = [] /\ rest = [])) ->
  run_utf8_validation 0 (bad ++ term) <> None ->
  lines (bad ++ term ++ rest)%list = Err INVALID_UTF8 :: lines rest.
Proof.
  intros Hn Ht Hv. destruct Ht as [-> | [-> ->]].
  - cbn [app]. unfold lines. rewrite read_chunks_app by exact Hn. cbn [map rev app].
    unfold from_utf8. destruct (run_utf8_validation 0 (bad ++ [10%Z])); [reflexivity | congruence].
  - rewrite !app_nil_r in *. unfold lines.
    rewrite read_chunks_noline by (exact Hn || (right; intros ->; apply Hv; reflexivity)).
    cbn [map rev app]. unfold from_utf8.
    destruct (run_utf8_validation 0 bad); [reflexivity | congruence].
Qed.

Lemma print_lines_ok (ex : list Z -> list Z) (ls : list (list Z)) (rest : list (result (list Z))) :
  print_lines ex (map Ok ls ++ rest)%list =
  let '(o, r) := print_lines ex rest in
  ((map (fun line => Stdout (as_bytes (ex line) ++ [10%Z])%list) ls ++ o)%list, r).
Proof.
  induction ls as [|l ls IH]; cbn [map app print_lines].
  - destruct (print_lines ex rest); reflexivity.
  - rewrite IH. destruct (print_lines ex rest); reflexivity.
Qed.

End Reading.


Module Driver.

Section Files.
Variable read_records : Z -> list Z -> list (result (list string)).
Variable fs : string -> result (list Z).
Variable stdin : nat -> list Z.

Lemma run_files_app (config : Config) (k : nat) (f1 f2 : list string) :
  run_files read_records fs stdin config k (f1 ++ f2) =
  let '(o1, r1) := run_files read_records fs stdin config k f1 in
  match r1 with
  | Err m => (o1, Err m)
  | Ok _ =>
      let '(o2, r2) := run_files read_records fs stdin config (stdin_opened f1 + k) f2 in
      ((o1 ++ o2)%list, r2)
  end.
Proof.
  revert k; induction f1 as [|f f1 IH]; intros k.
  - cbn [app run_files stdin_opened Nat.add].
    destruct (run_files read_records fs stdin config k f2); reflexivity.
  - cbn [app run_files stdin_opened].
    destruct (open fs (stdin k) f) as [file|e] eqn:Eo.
    + destruct (process read_records config file) as [o1 [u|m]]; [|reflexivity].
      rewrite IH.
      assert (Hk : (stdin_opened f1 + (if String.eqb f "-" then S k else k) =
                    (if String.eqb f "-" then 1 else 0) + stdin_opened f1 + k)%nat).
      { destruct (String.eqb f "-"); lia. }
      rewrite Hk.
      destruct (run_files read_records fs stdin config (if String.eqb f "-" then S k else k) f1)
        as [o3 [u3|m3]]; [|reflexivity].
      destruct (run_files read_records fs stdin config
                  ((if String.eqb f "-" then 1 else 0) + stdin_opened f1 + k) f2).
      rewrite app_assoc; reflexivity.
    + rewrite IH.
      assert (Hf : String.eqb f "-" = false).
      { destruct (String.eqb_spec f "-") as [->|Hf]; [discriminate | reflexivity]. }
      rewrite Hf. cbn [Nat.add].
      destruct (run_files read_records fs stdin config k f1) as [o3 [u3|m3]]; [|reflexivity].
      destruct (run_files read_records fs stdin config (stdin_opened f1 + k) f2).
      reflexivity.
Qed.

End Files.

Open Scope Z_scope.

Lemma as_bytes_length (cs : list Z) :
  (List.length cs <= List.length (as_bytes cs))%nat.
Proof.
  induction cs as [|c cs IH]; [simpl; lia|]. unfold as_bytes in *. cbn [flat_map].
  rewrite length_app. pose proof (proj1 (Valid.encode_length c)). simpl. lia.
Qed.

Lemma single_byte_iff (d : list Z) :
  forallb is_scalar d = true ->
  (List.length (as_bytes d) = 1%nat <-> exists c, d = [c] /\ 0 <= c < 0x80).
Proof.
  intros Hd. split.
  - destruct d as [|c [|c2 d']]; intros H.
    + discriminate H.
    + exists c. split; [reflexivity|].
      simpl in Hd. apply andb_prop in Hd as [Hc _]. apply Valid.scalar_facts in Hc as [Hc _].
      destruct (Z.ltb_spec c 0x80); [lia|].
      pose proof (proj2 (Valid.encode_length c) ltac:(lia)).
      unfold as_bytes in H. cbn [flat_map] in H. rewrite app_nil_r in H. lia.
    + unfold as_bytes in H. cbn [flat_map] in H. rewrite !length_app in H.
      pose proof (proj1 (Valid.encode_length c)). pose proof (proj1 (Valid.encode_length c2)).
      lia.
  - intros [c [-> Hc]]. unfold as_bytes, encode_utf8. cbn [flat_map].
    destruct (Z.ltb_spec c 0x80); [reflexivity | lia].
Qed.

Lemma get_args_ok (m : Matches) (config : Config) :
  get_args m = Ok config -> forallb is_scalar (m_delimiter m) = true ->
  m_delimiter m = [delimiter config] /\ 0 <= delimiter config < 0x80 /\
  files config = m_files m /\
  exists v l, parse_pos v = Ok l /\
    ((m_bytes m = Some v /\ extract config = Bytes l) \/
     (m_bytes m = None /\ m_chars m = Some v /\ extract config = Chars l) \/
     (m_bytes m = None /\ m_chars m = None /\ m_fields m = Some v /\ extract config = Fields l)).
Proof.
  intros H Hd. unfold get_args in H.
  destruct (Nat.eqb_spec (List.length (as_bytes (m_delimiter m))) 1) as [Hl|Hl];
    [|discriminate]. cbn [negb] in H.
  destruct (proj1 (single_byte_iff _ Hd) Hl) as [c [Ec Hc]].
  assert (Hb : as_bytes (m_delimiter m) = [c]).
  { rewrite Ec. unfold as_bytes, encode_utf8. cbn [flat_map].
    destruct (Z.ltb_spec c 0x80); [reflexivity | lia]. }
  rewrite Hb in H. cbn [nth] in H.
  destruct (m_bytes m) as [v|] eqn:EB;
  [|destruct (m_chars m) as [v|] eqn:EC;
    [|destruct (m_fields m) as [v|] eqn:EF; [|discriminate]]];
  (destruct (parse_pos v) as [l|e] eqn:Ep; [|discriminate]);
  cbn [map_result] in H; injection H as <-; cbn [delimiter files extract];
  (split; [exact Ec|]); (split; [exact Hc|]); (split; [reflexivity|]);
  exists v, l; (split; [exact Ep|]);
  first [ left; split; reflexivity
        | right; left; repeat split; reflexivity
        | right; right; repeat split; reflexivity ].
Qed.

(** A one-byte [&str]'s byte is its [char]: [str::from_utf8] accepts it. *)
Lemma from_utf8_ascii (c : Z) : 0 <= c < 0x80 -> from_utf8 [c] = Ok [c].
Proof.
  intros Hc. unfold from_utf8. cbn [run_utf8_validation from_utf8_lossy].
  destruct (Z.ltb_spec c 0x80); [reflexivity | lia].
Qed.

Lemma print_records_ok (delim : Z) (field_pos : PositionList) (recs : list (list string)) :
  0 <= delim < 0x80 ->
  print_records delim field_pos (map Ok recs) =
  (map (fun record => Stdout (bytes_of_string
          (String.concat (string_of_bytes [delim]) (extract_fields record field_pos)) ++ [10])%list)
       recs, Ok tt).
Proof.
  intros Hd. induction recs as [|r recs IH]; [reflexivity|].
  cbn [map print_records]. rewrite from_utf8_ascii by exact Hd. rewrite IH. reflexivity.
Qed.

End Driver.

(** ** Properties of the parser and the extractors *)

Import Parse Extraction.

(** C1: a part with more than two ['-']-separated segments makes
    [parse_pos] fail with an illegal-value error, but the message embeds the
    whole selection string (line 153 passes [range], not [part]): on
    ["2,1-1-1"] it names ["2,1-1-1"], not the offending part ["1-1-1"]. *)
Theorem parse_pos_dashes_names_whole_spec :
  parse_pos "2,1-1-1" = Err (value_error "2,1-1-1") /\
  parse_pos "2,1-1-1" <> Err (value_error "1-1-1").
Proof. split; [reflexivity | discriminate]. Qed.

(** C2: on success every range has [0 <= start < end], and there is one
    range per comma-separated part. *)
Theorem parse_pos_ranges_nonempty (s : string) (l : PositionList) :
  parse_pos s = Ok l ->
  Forall (fun r => (0 <= range_start r)%N /\ (range_start r < range_end r)%N) l /\
  List.length l = List.length (split_on ","%char s).
Proof.
  intros H. apply parse_pos_ok in H. split.
  - induction H as [|p r ps rs Hp _ IH]; constructor; [|exact IH].
    apply parse_part_shape in Hp as [[L [HL ->]] | [L [U [HL [HLU [HU ->]]]]]];
      simpl; lia.
  - symmetry. apply (Forall2_length H).
Qed.

Lemma parse_pos_ranges_nonempty_witness :
  parse_pos "1,7,3-5" = Ok [mk_range 0 1; mk_range 6 7; mk_range 2 5] /\
  Forall (fun r => (0 <= range_start r)%N /\ (range_start r < range_end r)%N)
    [mk_range 0 1; mk_range 6 7; mk_range 2 5] /\
  List.length [mk_range 0 1; mk_range 6 7; mk_range 2 5] =
    List.length (split_on ","%char "1,7,3-5").
Proof.
  split; [reflexivity|].
  apply (parse_pos_ranges_nonempty "1,7,3-5"). reflexivity.
Defined.

(** C3: the extractors are total. Each range contributes exactly the
    elements at its indices that exist in the input ([in_bounds_slice]);
    the other indices contribute nothing. [extract_chars "" [[0,1)]] is
    empty. *)
Theorem extract_total_in_bounds :
  (forall (line : list Z) (rs : PositionList),
      extract_chars line rs = flat_map (in_bounds_slice line) rs) /\
  (forall (line : list Z) (rs : PositionList),
      extract_bytes line rs = from_utf8_lossy (flat_map (in_bounds_slice (as_bytes line)) rs)) /\
  (forall (record : list string) (rs : PositionList),
      extract_fields record rs = flat_map (in_bounds_slice record) rs) /\
  extract_chars [] [mk_range 0 1] = [].
Proof.
  split; [|split; [|split]].
  - intros line rs. apply filter_map_range.
  - intros line rs. unfold extract_bytes. rewrite filter_map_range. reflexivity.
  - intros record rs. apply filter_map_range.
  - reflexivity.
Qed.

(** C4: the i-th range is the range of the i-th comma-separated part:
    ranges come in the order of the parts, none merged, sorted or dropped. *)
Theorem parse_pos_part_order (s : string) (l : PositionList) :
  parse_pos s = Ok l ->
  Forall2 (fun part r => parse_part s part = Ok r) (split_on ","%char s) l.
Proof. apply parse_pos_ok. Qed.

Lemma parse_pos_part_order_witness :
  parse_pos "1,7,3-5" = Ok [mk_range 0 1; mk_range 6 7; mk_range 2 5] /\
  Forall2 (fun part r => parse_part "1,7,3-5" part = Ok r) ["1"; "7"; "3-5"]
    [mk_range 0 1; mk_range 6 7; mk_range 2 5].
Proof.
  split; [reflexivity|].
  apply (parse_pos_part_order "1,7,3-5"). reflexivity.
Defined.

(** C7: the output follows the selection order: for [r1] before [r2],
    selecting [[r2, r1]] gives [r2]'s characters, then [r1]'s, the reverse of
    the concatenation [[r1, r2]] gives. *)
Theorem extract_chars_selection_order (s : list Z) (r1 r2 : Range) :
  (range_end r1 <= range_start r2)%N ->
  extract_chars s [r2; r1] = (extract_chars s [r2] ++ extract_chars s [r1])%list /\
  extract_chars s [r1; r2] = (extract_chars s [r1] ++ extract_chars s [r2])%list.
Proof.
  intros _. unfold extract_chars. cbn [flat_map]. rewrite !app_nil_r. split; reflexivity.
Qed.

Lemma extract_chars_selection_order_witness :
  (1 <= 2)%N /\
  extract_chars [97; 98; 99]%Z [mk_range 2 3; mk_range 1 2] =
    (extract_chars [97; 98; 99]%Z [mk_range 2 3] ++ extract_chars [97; 98; 99]%Z [mk_range 1 2])%list /\
  extract_chars [97; 98; 99]%Z [mk_range 1 2; mk_range 2 3] =
    (extract_chars [97; 98; 99]%Z [mk_range 1 2] ++ extract_chars [97; 98; 99]%Z [mk_range 2 3])%list.
Proof.
  split; [lia|].
  apply (extract_chars_selection_order [97; 98; 99]%Z (mk_range 1 2) (mk_range 2 3)).
  simpl. lia.
Defined.

(** C5, as stated, fails: ["a,0"] contains the endpoint ["0"], yet the
    error names the earlier part ["a"]. *)
Lemma parse_pos_zero_endpoint_counterexample :
  parse_pos "a,0" = Err (value_error "a") /\
  parse_pos "a,0" <> Err (value_error "0").
Proof. split; [reflexivity | discriminate]. Qed.

(** C5 (amended): when every part before [P] parses, [P] has at most two
    ['-']-separated segments, and the first endpoint of [P] that the endpoint
    check rejects is a digit string of value 0, [parse_pos] fails with
    [illegal list value: "0"], whatever the digits of that endpoint were. *)
Theorem parse_pos_zero_endpoint (s P e : string) (pre post es1 es2 : list string) :
  split_on ","%char s = (pre ++ P :: post)%list ->
  Forall (part_ok s) pre ->
  (List.length (split_on "-"%char P) <= 2)%nat ->
  split_on "-"%char P = (es1 ++ e :: es2)%list ->
  Forall (endpoint_ok P) es1 ->
  all_digits e = true -> e <> EmptyString -> dec_value e = 0%N ->
  parse_pos s = Err (value_error "0").
Proof.
  intros Hsplit Hpre Hlen HP Hes1 Hd Hne Hv.
  assert (Hbad : parse_endpoint P e = Err (value_error "0")).
  { unfold parse_endpoint. rewrite prefix_plus_digits by exact Hd.
    rewrite parse_usize_digits by assumption.
    rewrite parse_digits_value by (unfold dec_value in Hv; first [exact Hd | lia]).
    unfold dec_value in Hv. rewrite Hv. reflexivity. }
  destruct (parse_part_bad_endpoint s P e es1 es2 _ Hne Hlen HP Hes1 Hbad) as [HPne HPe].
  exact (parse_pos_first_err s P pre post _ HPne Hsplit Hpre HPe).
Qed.

Lemma parse_pos_zero_endpoint_witness :
  parse_pos "2,0-5" = Err (value_error "0").
Proof.
  apply (parse_pos_zero_endpoint "2,0-5" "0-5" "0" ["2"] [] [] ["5"]).
  - reflexivity.
  - constructor; [exists (mk_range 1 2); reflexivity | constructor].
  - simpl. lia.
  - reflexivity.
  - constructor.
  - reflexivity.
  - discriminate.
  - reflexivity.
Defined.

(** C6, as stated, fails: a part ["L-U"] with [L >= U] is not always
    rejected with the range-inversion message. In ["1-0"] the upper endpoint
    0 is refused first, and in ["a,2-1"] an earlier part fails first. *)
Lemma parse_pos_two_endpoints_counterexample :
  parse_pos "1-0" = Err (value_error "0") /\ value_error "0" <> inverted_error 1 0 /\
  parse_pos "a,2-1" = Err (value_error "a") /\ value_error "a" <> inverted_error 2 1.
Proof.
  split; [vm_compute; reflexivity|]. split; [vm_compute; discriminate|].
  split; [vm_compute; reflexivity | vm_compute; discriminate].
Qed.

(** C6 (amended): a comma-separated part ["L-U"] whose endpoints are
    nonempty ASCII digit strings (leading zeros allowed) with values
    [1 <= L, U <= usize::MAX], all earlier parts parsing: when [L >= U]
    [parse_pos] fails with the range-inversion message naming [L] and [U];
    when [L < U] the part becomes [[L-1, U)], at its position in the
    result. *)
Theorem parse_pos_two_endpoints (s a b : string) (pre post : list string) :
  split_on ","%char s = (pre ++ (a ++ String "-"%char b)%string :: post)%list ->
  Forall (part_ok s) pre ->
  all_digits a = true -> a <> EmptyString -> all_digits b = true -> b <> EmptyString ->
  (1 <= dec_value a <= usize_max)%N -> (1 <= dec_value b <= usize_max)%N ->
  ((dec_value b <= dec_value a)%N ->
     parse_pos s = Err (inverted_error (dec_value a) (dec_value b))) /\
  ((dec_value a < dec_value b)%N ->
     parse_part s (a ++ String "-"%char b) = Ok (mk_range (dec_value a - 1) (dec_value b)) /\
     forall l, parse_pos s = Ok l ->
       nth_error l (List.length pre) = Some (mk_range (dec_value a - 1) (dec_value b))).
Proof.
  intros Hsplit Hpre Ha Hane Hb Hbne Hva Hvb.
  pose proof (Accept.parse_part_digit_pair s a b Ha Hane Hb Hbne Hva Hvb) as HP.
  split.
  - intros Hle. apply N.leb_le in Hle. rewrite Hle in HP.
    apply (parse_pos_first_err s (a ++ String "-"%char b) pre post); [|exact Hsplit | exact Hpre | exact HP].
    destruct a; [congruence | discriminate].
  - intros Hlt. assert (Hgt : (dec_value b <=? dec_value a)%N = false) by (apply N.leb_gt; exact Hlt).
    rewrite Hgt in HP. split; [exact HP|].
    intros l Hl. apply parse_pos_ok in Hl. rewrite Hsplit in Hl.
    apply Forall2_app_inv_l in Hl as [l1 [l2 [H1 [H2 ->]]]].
    inversion H2 as [|p r ps rs Hr Hrs]; subst.
    rewrite (Forall2_length H1), nth_error_app2, Nat.sub_diag by lia. cbn. congruence.
Qed.

Lemma parse_pos_two_endpoints_witness :
  inverted_error 1 1 = "First number in range (1) must be lower than second number (1)" /\
  ((dec_value "05" <= dec_value "02")%N ->
     parse_pos "3,02-05" = Err (inverted_error (dec_value "02") (dec_value "05"))) /\
  ((dec_value "02" < dec_value "05")%N ->
     parse_part "3,02-05" ("02" ++ String "-"%char "05") =
       Ok (mk_range (dec_value "02" - 1) (dec_value "05")) /\
     forall l, parse_pos "3,02-05" = Ok l ->
       nth_error l (List.length ["3"]) = Some (mk_range (dec_value "02" - 1) (dec_value "05"))).
Proof.
  split; [reflexivity|].
  apply (parse_pos_two_endpoints "3,02-05" "02" "05" ["3"] []).
  - vm_compute. reflexivity.
  - constructor; [|constructor]. exists (mk_range 2 3). vm_compute. reflexivity.
  - reflexivity.
  - discriminate.
  - reflexivity.
  - discriminate.
  - vm_compute. split; discriminate.
  - vm_compute. split; discriminate.
Defined.

(** C8: writing a parsed position list back in 1-based notation and
    parsing it again gives the same list. *)
Theorem parse_pos_serialize_roundtrip (s : string) (l : PositionList) :
  parse_pos s = Ok l -> parse_pos (serialize_positions l) = Ok l.
Proof.
  intros H. apply parse_pos_ok in H.
  assert (Hok : Forall (fun r => (forall X, parse_part X (serialize_range r) = Ok r) /\
                                 has_char ","%char (serialize_range r) = false) l).
  { clear -H. induction H as [|p r ps rs Hp _ IH]; constructor; [|exact IH].
    apply (serialize_range_ok s p r Hp). }
  assert (Hne : l <> []).
  { intros ->. inversion H as [Hs|]. exact (split_on_nonempty _ _ (eq_sym Hs)). }
  unfold parse_pos, serialize_positions.
  destruct l as [|r rs]; [congruence|].
  rewrite string_eqb_nonempty.
  2:{ cbn [map]. destruct (map serialize_range rs) as [|x xs].
      - apply serialize_range_nonempty.
      - pose proof (serialize_range_nonempty r) as Hr.
        destruct (serialize_range r); [congruence | discriminate]. }
  rewrite split_on_concat.
  - refine (parse_parts_of_Forall2 _ _ (r :: rs) [] _).
    rewrite <- (map_id (r :: rs)) at 2.
    apply Forall2_map_l. eapply Forall_impl; [|exact Hok].
    intros x [Hx _]. apply Hx.
  - discriminate.
  - apply Forall_map. eapply Forall_impl; [|exact Hok]. intros x [_ Hx]. exact Hx.
Qed.

Lemma parse_pos_serialize_roundtrip_witness :
  serialize_positions [mk_range 0 1; mk_range 6 7; mk_range 2 5] = "1,7,3-5" /\
  parse_pos (serialize_positions [mk_range 0 1; mk_range 6 7; mk_range 2 5]) =
    Ok [mk_range 0 1; mk_range 6 7; mk_range 2 5].
Proof.
  split; [reflexivity|].
  apply (parse_pos_serialize_roundtrip "001,07,3-05"). reflexivity.
Defined.



(** C10, as stated, fails: in ["0-18446744073709551616"] the endpoint
    before the oversized one is 0, and the error names ["0"], not the part. *)
Lemma parse_pos_oversized_counterexample :
  parse_pos "0-18446744073709551616" = Err (value_error "0") /\
  parse_pos "0-18446744073709551616" <> Err (value_error "0-18446744073709551616").
Proof. split; [vm_compute; reflexivity | vm_compute; discriminate]. Qed.

(** C10 (amended): a selection with a digit endpoint above [usize::MAX]
    never parses; when the parts before its part parse, its part has at most
    two segments, and the endpoints before it in the part are accepted, the
    error is the illegal-value error naming that part. *)
Theorem parse_pos_oversized_endpoint :
  (forall (s part e : string),
     In part (split_on ","%char s) -> In e (split_on "-"%char part) ->
     all_digits e = true -> e <> EmptyString -> (usize_max < dec_value e)%N ->
     exists m, parse_pos s = Err m) /\
  (forall (s P e : string) (pre post es1 es2 : list string),
     split_on ","%char s = (pre ++ P :: post)%list ->
     Forall (part_ok s) pre ->
     (List.length (split_on "-"%char P) <= 2)%nat ->
     split_on "-"%char P = (es1 ++ e :: es2)%list ->
     Forall (endpoint_ok P) es1 ->
     all_digits e = true -> e <> EmptyString -> (usize_max < dec_value e)%N ->
     parse_pos s = Err (value_error P)).
Proof.
  split.
  - intros s part e Hpart He Hd Hne Hbig.
    destruct (parse_pos s) as [l|m] eqn:E; [exfalso | exists m; reflexivity].
    apply parse_pos_ok in E.
    destruct (Forall2_In_l _ _ _ part E Hpart) as [r Hr].
    apply parse_part_endpoints_ok in Hr.
    rewrite Forall_forall in Hr. destruct (Hr e He) as [b Hb].
    apply parse_endpoint_ok in Hb as [_ [_ Hb]].
    apply parse_usize_all_digits in Hb as [-> Hle]; [lia | exact Hd | exact Hne].
  - intros s P e pre post es1 es2 Hsplit Hpre Hlen HP Hes1 Hd Hne Hbig.
    assert (Hbad : parse_endpoint P e = Err (value_error P)).
    { unfold parse_endpoint. rewrite prefix_plus_digits by exact Hd.
      destruct (parse_usize e) as [b|] eqn:Eb; [|reflexivity].
      apply parse_usize_all_digits in Eb as [-> Hle]; [lia | exact Hd | exact Hne]. }
    destruct (parse_part_bad_endpoint s P e es1 es2 _ Hne Hlen HP Hes1 Hbad) as [HPne HPe].
    exact (parse_pos_first_err s P pre post _ HPne Hsplit Hpre HPe).
Qed.

(** ** Further properties of the code *)

(** X1: parse_pos fails with the empty-list message exactly when the selection string is empty; no other input yields that message. *)
Theorem parse_pos_empty_message_iff (s : string) :
  parse_pos s = Err empty_list_error <-> s = EmptyString.
Proof.
  split.
  - intros H. apply Accept.parse_pos_err_cases in H as [[-> _] | [_ Hc]]; [reflexivity|].
    exfalso. destruct Hc as [H | [[p [_ H]] | [H | [L [U [_ [_ [_ H]]]]]]]];
      unfold empty_list_error, value_error, inverted_error in H; simpl in H; discriminate H.
  - intros ->. reflexivity.
Qed.

(** X2: Every error of parse_pos has one of four forms: the empty-list message (only for the empty string), an illegal-value message naming the whole selection, a comma-separated part, or "0", or the inverted-range message with 1 <= second <= first <= usize::MAX. *)
Theorem parse_pos_error_forms (s m : string) :
  parse_pos s = Err m ->
  (s = EmptyString /\ m = empty_list_error) \/
  (s <> EmptyString /\
   (m = value_error s \/ (exists p, In p (split_on ","%char s) /\ m = value_error p) \/
    m = value_error "0" \/
    (exists L U, (1 <= U)%N /\ (U <= L)%N /\ (L <= usize_max)%N /\ m = inverted_error L U))).
Proof. apply Accept.parse_pos_err_cases. Qed.

Lemma parse_pos_error_forms_witness :
  parse_pos "7,2-1" = Err (inverted_error 2 1) /\
  ("7,2-1" <> EmptyString /\
   (inverted_error 2 1 = value_error "7,2-1" \/
    (exists p, In p (split_on ","%char "7,2-1") /\ inverted_error 2 1 = value_error p) \/
    inverted_error 2 1 = value_error "0" \/
    (exists L U, (1 <= U)%N /\ (U <= L)%N /\ (L <= usize_max)%N /\
                 inverted_error 2 1 = inverted_error L U))).
Proof.
  split; [reflexivity|].
  destruct (parse_pos_error_forms "7,2-1" (inverted_error 2 1) eq_refl) as [[H _] | H];
    [discriminate H | exact H].
Defined.

(** X3: If a nonempty selection has an empty comma-separated part (as in "1,,2") and every part before it parses, parse_pos fails with the illegal-value message naming the whole selection. *)
Theorem parse_pos_empty_part (s : string) (pre post : list string) :
  s <> EmptyString ->
  split_on ","%char s = (pre ++ EmptyString :: post)%list ->
  Forall (part_ok s) pre ->
  parse_pos s = Err (value_error s).
Proof.
  intros Hne Hsplit Hpre. unfold parse_pos.
  rewrite string_eqb_nonempty by exact Hne. rewrite Hsplit, parse_parts_app.
  destruct (parse_parts_all_ok s pre [] Hpre) as [l Hl]. rewrite Hl. reflexivity.
Qed.

Lemma parse_pos_empty_part_witness : parse_pos "1,,2" = Err (value_error "1,,2").
Proof.
  apply (parse_pos_empty_part "1,,2" ["1"] ["2"]).
  - discriminate.
  - reflexivity.
  - constructor; [exists (mk_range 0 1); reflexivity | constructor].
Defined.

(** X4: parse_pos succeeds with list l exactly when each comma-separated part is either a nonempty decimal digit string n with 1 <= n <= usize::MAX giving n-1..n, or two such strings a-b with a < b giving a-1..b, and l lists these ranges in order (leading zeros are accepted). *)
Theorem parse_pos_accepted_parts (s : string) (l : PositionList) :
  parse_pos s = Ok l <-> Forall2 accepted_part (split_on ","%char s) l.
Proof. apply Accept.parse_pos_iff. Qed.

(** X5: A selection string that parse_pos accepts contains only ASCII digits, ',' and '-'. *)
Theorem parse_pos_charset (s : string) (l : PositionList) :
  parse_pos s = Ok l -> string_forallb pos_char s = true.
Proof.
  intros H. apply Accept.parse_pos_iff in H.
  assert (Hdig : forall p, all_digits p = true -> string_forallb pos_char p = true).
  { induction p as [|c p IH]; [reflexivity|]. cbn [all_digits string_forallb].
    intros Hp. apply andb_prop in Hp as [Hc Hp]. apply andb_true_intro. split.
    - unfold pos_char. rewrite Hc. reflexivity.
    - apply IH. exact Hp. }
  rewrite <- (Accept.split_on_concat_inv ","%char s).
  apply Accept.string_forallb_concat; [reflexivity|].
  induction H as [|p r ps rs Hp _ IH]; constructor; [|exact IH].
  destruct Hp as [[Hd _] | [a [b [-> [Ha [_ [Hb _]]]]]]]; [exact (Hdig p Hd)|].
  rewrite Accept.string_forallb_app. cbn [string_forallb].
  rewrite (Hdig a Ha), (Hdig b Hb). reflexivity.
Qed.

Lemma parse_pos_charset_witness :
  parse_pos "1,7,3-5" = Ok [mk_range 0 1; mk_range 6 7; mk_range 2 5] /\
  string_forallb pos_char "1,7,3-5" = true.
Proof.
  split; [reflexivity|].
  apply (parse_pos_charset "1,7,3-5" [mk_range 0 1; mk_range 6 7; mk_range 2 5]).
  reflexivity.
Defined.

(** X6: parse_pos of s1 ++ "," ++ s2 succeeds with l exactly when parse_pos s1 and parse_pos s2 both succeed and l is the concatenation of their results. *)
Theorem parse_pos_concat (s1 s2 : string) (l : PositionList) :
  parse_pos (s1 ++ "," ++ s2) = Ok l <->
  exists l1 l2, parse_pos s1 = Ok l1 /\ parse_pos s2 = Ok l2 /\ l = (l1 ++ l2)%list.
Proof.
  change (s1 ++ "," ++ s2) with (s1 ++ String ","%char s2). split.
  - intros H. apply Accept.parse_pos_iff in H. rewrite split_on_app in H.
    apply Forall2_app_inv_l in H as [l1 [l2 [H1 [H2 ->]]]].
    exists l1, l2. split; [apply Accept.parse_pos_iff; exact H1|].
    split; [apply Accept.parse_pos_iff; exact H2 | reflexivity].
  - intros [l1 [l2 [H1 [H2 ->]]]]. apply Accept.parse_pos_iff. rewrite split_on_app.
    apply Forall2_app; apply Accept.parse_pos_iff; assumption.
Qed.

(** X7: extract_chars and extract_fields distribute over concatenation of position lists; extract_bytes does not: on "€", ranges 0..1 and 1..3 together give "€" but separately give three replacement characters. *)
Theorem extract_concat_positions :
  (forall (line : list Z) (rs1 rs2 : PositionList),
      extract_chars line (rs1 ++ rs2)%list = (extract_chars line rs1 ++ extract_chars line rs2)%list) /\
  (forall (record : list string) (rs1 rs2 : PositionList),
      extract_fields record (rs1 ++ rs2)%list = (extract_fields record rs1 ++ extract_fields record rs2)%list) /\
  extract_bytes [0x20AC%Z] [mk_range 0 1; mk_range 1 3] = [0x20AC%Z] /\
  (extract_bytes [0x20AC%Z] [mk_range 0 1] ++ extract_bytes [0x20AC%Z] [mk_range 1 3])%list =
    [0xFFFD; 0xFFFD; 0xFFFD]%Z.
Proof.
  split; [|split; [|split]].
  - intros line rs1 rs2. unfold extract_chars. apply flat_map_app.
  - intros record rs1 rs2. unfold extract_fields. apply flat_map_app.
  - reflexivity.
  - reflexivity.
Qed.

(** X8: If the bytes selected by the first position list form the UTF-8 encoding of a sequence of scalar values, extract_bytes distributes over concatenation of position lists. *)
Theorem extract_bytes_concat_valid (line cs : list Z) (rs1 rs2 : PositionList) :
  forallb is_scalar cs = true ->
  flat_map (in_bounds_slice (as_bytes line)) rs1 = as_bytes cs ->
  extract_bytes line (rs1 ++ rs2)%list = (extract_bytes line rs1 ++ extract_bytes line rs2)%list.
Proof.
  intros Hcs Hsel. unfold extract_bytes. rewrite !filter_map_range, flat_map_app, Hsel.
  rewrite Valid.lossy_as_bytes_app, Utf8.lossy_as_bytes by exact Hcs. reflexivity.
Qed.

Lemma extract_bytes_concat_valid_witness :
  extract_bytes [0x20AC; 97]%Z ([mk_range 0 3] ++ [mk_range 3 4])%list =
  (extract_bytes [0x20AC; 97]%Z [mk_range 0 3] ++ extract_bytes [0x20AC; 97]%Z [mk_range 3 4])%list.
Proof.
  apply (extract_bytes_concat_valid [0x20AC; 97]%Z [0x20AC%Z]); reflexivity.
Defined.

(** X9: For a <= b <= c, replacing adjacent ranges a..b, b..c by a..c anywhere in the position list does not change the result of extract_chars, extract_bytes or extract_fields. *)
Theorem extract_adjacent_ranges_merge (line : list Z) (record : list string)
  (pre post : PositionList) (a b c : N) :
  (a <= b)%N -> (b <= c)%N ->
  extract_chars line (pre ++ mk_range a b :: mk_range b c :: post)%list =
    extract_chars line (pre ++ mk_range a c :: post)%list /\
  extract_bytes line (pre ++ mk_range a b :: mk_range b c :: post)%list =
    extract_bytes line (pre ++ mk_range a c :: post)%list /\
  extract_fields record (pre ++ mk_range a b :: mk_range b c :: post)%list =
    extract_fields record (pre ++ mk_range a c :: post)%list.
Proof.
  intros Hab Hbc. unfold extract_chars, extract_bytes, extract_fields.
  rewrite !filter_map_range, !Slices.flat_map_merge by assumption. auto.
Qed.

Lemma extract_adjacent_ranges_merge_witness :
  extract_chars [104; 105]%Z [mk_range 0 1; mk_range 1 2] = extract_chars [104; 105]%Z [mk_range 0 2] /\
  extract_bytes [104; 105]%Z [mk_range 0 1; mk_range 1 2] = extract_bytes [104; 105]%Z [mk_range 0 2] /\
  extract_fields ["a"; "b"] [mk_range 0 1; mk_range 1 2] = extract_fields ["a"; "b"] [mk_range 0 2].
Proof.
  exact (extract_adjacent_ranges_merge [104; 105]%Z ["a"; "b"] [] [] 0 1 2
           ltac:(lia) ltac:(lia)).
Defined.

(** X10: The number of characters returned by extract_chars (fields by extract_fields) is the sum over the ranges of min(end, len) - min(start, len), where len is the line's character count (the record's field count). *)
Theorem extract_output_length (line : list Z) (record : list string) (rs : PositionList) :
  List.length (extract_chars line rs) =
    list_sum (map (fun r => Nat.min (N.to_nat (range_end r)) (List.length line) -
                            Nat.min (N.to_nat (range_start r)) (List.length line))%nat rs) /\
  List.length (extract_fields record rs) =
    list_sum (map (fun r => Nat.min (N.to_nat (range_end r)) (List.length record) -
                            Nat.min (N.to_nat (range_start r)) (List.length record))%nat rs).
Proof.
  assert (Hgen : forall (A : Type) (xs : list A),
    List.length (flat_map (in_bounds_slice xs) rs) =
    list_sum (map (fun r => Nat.min (N.to_nat (range_end r)) (List.length xs) -
                            Nat.min (N.to_nat (range_start r)) (List.length xs))%nat rs)).
  { intros A xs. induction rs as [|r rs IH]; [reflexivity|].
    cbn [flat_map map list_sum]. rewrite length_app, IH, Slices.in_bounds_slice_length.
    reflexivity. }
  unfold extract_chars, extract_fields. rewrite !filter_map_range. split; apply Hgen.
Qed.

(** X11: A single range 0..n with n at least the line's byte length (the record's field count) makes extract_chars and extract_bytes return the line and extract_fields return the record unchanged. *)
Theorem extract_whole_line (line : list Z) (record : list string) (n : N) :
  forallb is_scalar line = true ->
  (List.length (as_bytes line) <= N.to_nat n)%nat ->
  (List.length record <= N.to_nat n)%nat ->
  extract_chars line [mk_range 0 n] = line /\
  extract_bytes line [mk_range 0 n] = line /\
  extract_fields record [mk_range 0 n] = record.
Proof.
  intros Hs Hb Hr. pose proof (Driver.as_bytes_length line) as Hl.
  unfold extract_chars, extract_bytes, extract_fields. rewrite !filter_map_range.
  cbn [flat_map]. rewrite !app_nil_r.
  rewrite !Slices.in_bounds_slice_all by lia.
  rewrite Utf8.lossy_as_bytes by exact Hs. auto.
Qed.

Lemma extract_whole_line_witness :
  extract_chars [0x20AC; 97]%Z [mk_range 0 4] = [0x20AC; 97]%Z /\
  extract_bytes [0x20AC; 97]%Z [mk_range 0 4] = [0x20AC; 97]%Z /\
  extract_fields ["a"; "b"] [mk_range 0 4] = ["a"; "b"].
Proof.
  apply extract_whole_line; [reflexivity | simpl; lia | simpl; lia].
Defined.

(** X12: On an all-ASCII line, extract_bytes and extract_chars return the same string for every position list. *)
Theorem extract_bytes_ascii_line (line : list Z) (rs : PositionList) :
  Forall (fun c => (0 <= c < 0x80)%Z) line ->
  extract_bytes line rs = extract_chars line rs.
Proof.
  intros H. unfold extract_bytes, extract_chars. rewrite !filter_map_range.
  rewrite Valid.as_bytes_ascii by exact H.
  apply Valid.lossy_ascii, Slices.Forall_in_bounds_slice. exact H.
Qed.

Lemma extract_bytes_ascii_line_witness :
  extract_bytes [97; 98; 99]%Z [mk_range 2 3; mk_range 0 1] =
  extract_chars [97; 98; 99]%Z [mk_range 2 3; mk_range 0 1].
Proof. apply extract_bytes_ascii_line. repeat constructor; lia. Defined.

(** X13: A delimiter that is not a single ASCII character (its UTF-8 encoding is not one byte) makes get_args fail with the '--delim "..." must be a single byte' message, whatever selection options are given. *)
Theorem get_args_rejects_delimiter (m : Matches) :
  forallb is_scalar (m_delimiter m) = true ->
  ~ (exists c, m_delimiter m = [c] /\ (0 <= c < 0x80)%Z) ->
  get_args m = Err (delim_error (m_delimiter m)).
Proof.
  intros Hs Hn. unfold get_args.
  destruct (Nat.eqb_spec (List.length (as_bytes (m_delimiter m))) 1) as [Hl|Hl].
  - exfalso. apply Hn. apply (Driver.single_byte_iff _ Hs). exact Hl.
  - reflexivity.
Qed.

Lemma get_args_rejects_delimiter_witness :
  get_args (mk_matches ["-"] [0xE9%Z] (Some "1") None None) =
  Err (delim_error [0xE9%Z]).
Proof.
  apply (get_args_rejects_delimiter (mk_matches ["-"] [0xE9%Z] (Some "1") None None)).
  - reflexivity.
  - intros [c [Hc Hr]]. cbn [m_delimiter] in Hc. injection Hc as <-. lia.
Defined.

(** X14: When get_args succeeds, the delimiter option is a single ASCII character stored as the config's delimiter byte, the files are passed through, and the extraction comes from parsing the first present of --bytes, --chars, --fields in that order. *)
Theorem get_args_config (m : Matches) (config : Config) :
  get_args m = Ok config -> forallb is_scalar (m_delimiter m) = true ->
  m_delimiter m = [delimiter config] /\ (0 <= delimiter config < 0x80)%Z /\
  files config = m_files m /\
  exists v l, parse_pos v = Ok l /\
    ((m_bytes m = Some v /\ extract config = Bytes l) \/
     (m_bytes m = None /\ m_chars m = Some v /\ extract config = Chars l) \/
     (m_bytes m = None /\ m_chars m = None /\ m_fields m = Some v /\ extract config = Fields l)).
Proof. apply Driver.get_args_ok. Qed.

Lemma get_args_config_witness :
  get_args (mk_matches ["a.txt"] [44%Z] None None (Some "2,1")) =
    Ok (mk_config ["a.txt"] 44 (Fields [mk_range 1 2; mk_range 0 1])) /\
  [44%Z] = [44%Z] /\ (0 <= 44 < 0x80)%Z /\ ["a.txt"] = ["a.txt"].
Proof.
  split; [reflexivity|].
  destruct (get_args_config (mk_matches ["a.txt"] [44%Z] None None (Some "2,1"))
              (mk_config ["a.txt"] 44 (Fields [mk_range 1 2; mk_range 0 1])) eq_refl eq_refl)
    as [H1 [H2 [H3 _]]].
  exact (conj H1 (conj H2 H3)).
Defined.

(** X15: With a single-ASCII-character delimiter, get_args fails with 'Must have --fields, --bytes, or --chars' when no selection option is given, and returns parse_pos's error unchanged when the first present selection option does not parse. *)
Theorem get_args_selection_errors (m : Matches) (c : Z) :
  m_delimiter m = [c] -> (0 <= c < 0x80)%Z ->
  (m_bytes m = None -> m_chars m = None -> m_fields m = None ->
   get_args m = Err must_have_error) /\
  (forall v e,
     (m_bytes m = Some v \/ (m_bytes m = None /\ m_chars m = Some v) \/
      (m_bytes m = None /\ m_chars m = None /\ m_fields m = Some v)) ->
     parse_pos v = Err e -> get_args m = Err e).
Proof.
  intros Hd Hc. unfold get_args. rewrite Hd.
  assert (Hb : as_bytes [c] = [c]).
  { unfold as_bytes, encode_utf8. cbn [flat_map]. destruct (Z.ltb_spec c 0x80); [reflexivity | lia]. }
  rewrite Hb. cbn [List.length Nat.eqb negb]. split.
  - intros -> -> ->. reflexivity.
  - intros v e [-> | [[-> ->] | [-> [-> ->]]]] Hp; rewrite Hp; reflexivity.
Qed.

Lemma get_args_selection_errors_witness :
  get_args (mk_matches ["-"] [9%Z] None (Some "0-3") None) = Err (value_error "0").
Proof.
  destruct (get_args_selection_errors (mk_matches ["-"] [9%Z] None (Some "0-3") None) 9
              eq_refl ltac:(lia)) as [_ H].
  apply (H "0-3"). right; left; split; reflexivity. reflexivity.
Defined.

(** X16: Running a file list f1 ++ f2 produces f1's output and stops if f1 ends in an error; otherwise f2's output follows, and f2 runs after the readers over standard input that f1 opened, one per "-". *)
Theorem run_files_sequence (read_records : Z -> list Z -> list (result (list string)))
  (fs : string -> result (list Z)) (stdin : nat -> list Z) (config : Config) (k : nat)
  (f1 f2 : list string) :
  run_files read_records fs stdin config k (f1 ++ f2)%list =
  let '(o1, r1) := run_files read_records fs stdin config k f1 in
  match r1 with
  | Err m => (o1, Err m)
  | Ok _ =>
      let '(o2, r2) := run_files read_records fs stdin config (stdin_opened f1 + k) f2 in
      ((o1 ++ o2)%list, r2)
  end.
Proof. apply Driver.run_files_app. Qed.

(** X17: A file other than "-" that cannot be opened contributes only the stderr line '<name>: <error>', and the files after it are still processed. *)
Theorem run_files_open_error (read_records : Z -> list Z -> list (result (list string)))
  (fs : string -> result (list Z)) (stdin : nat -> list Z) (config : Config) (k : nat)
  (f1 f2 : list string) (f e : string) (o1 o2 : list output) (u : unit) (r2 : result unit) :
  f <> "-" -> fs f = Err e ->
  run_files read_records fs stdin config k f1 = (o1, Ok u) ->
  run_files read_records fs stdin config (stdin_opened f1 + k) f2 = (o2, r2) ->
  run_files read_records fs stdin config k (f1 ++ f :: f2)%list =
    ((o1 ++ Stderr (f ++ ": " ++ e) :: o2)%list, r2).
Proof.
  intros Hf Hfs H1 H2. rewrite Driver.run_files_app, H1. cbn [run_files].
  unfold open. destruct (String.eqb_spec f "-") as [E|_]; [congruence|].
  rewrite Hfs, H2. reflexivity.
Qed.

Lemma run_files_open_error_witness :
  run_files (fun _ _ => [])
    (fun f => if String.eqb f "b" then Err "No such file or directory (os error 2)" else Ok [104; 10]%Z)
    (fun _ => []) (mk_config [] 9 (Chars [mk_range 0 1])) 0 ["a"; "b"; "c"] =
  ([Stdout [104; 10]%Z; Stderr "b: No such file or directory (os error 2)"; Stdout [104; 10]%Z], Ok tt).
Proof.
  apply (run_files_open_error _ _ _ _ 0 ["a"] ["c"] "b" "No such file or directory (os error 2)"
           [Stdout [104; 10]%Z] [Stdout [104; 10]%Z] tt (Ok tt)); try reflexivity.
  discriminate.
Defined.

(** X18: For --chars or --bytes, a file of valid UTF-8 text gives one stdout line per line of the file: the extracted text followed by a newline. A line ended by "\n" or "\r\n" loses that terminator before extraction; a last line without a newline is taken as it is. *)
Theorem run_files_text_lines (read_records : Z -> list Z -> list (result (list string)))
  (fs : string -> result (list Z)) (stdin : nat -> list Z) (config : Config) (k : nat)
  (f : string) (ls : list (list Z)) (tail : list Z) :
  open fs (stdin k) f = Ok (text_file ls tail) ->
  forallb newline_free ls = true -> newline_free tail = true ->
  (forall l, extract config = Chars l ->
     run_files read_records fs stdin config k [f] =
       (map (fun line => Stdout (as_bytes (extract_chars line l) ++ [10%Z])%list)
            (text_lines ls tail), Ok tt)) /\
  (forall l, extract config = Bytes l ->
     run_files read_records fs stdin config k [f] =
       (map (fun line => Stdout (as_bytes (extract_bytes line l) ++ [10%Z])%list)
            (text_lines ls tail), Ok tt)).
Proof.
  intros Ho Hls Ht. pose proof (Reading.lines_text_file ls tail Hls Ht) as Hl.
  split; intros l He; cbn [run_files]; rewrite Ho; unfold process; rewrite He, Hl;
    rewrite <- (app_nil_r (map Ok (text_lines ls tail))), Reading.print_lines_ok;
    cbn [print_lines run_files]; rewrite !app_nil_r; reflexivity.
Qed.

Lemma run_files_text_lines_witness :
  run_files (fun _ _ => []) (fun _ => Ok [])
    (fun _ => text_file [[97; 98; 13]; []; [0x20AC; 99]] [100; 101])%Z
    (mk_config ["-"] 9 (Chars [mk_range 1 2])) 0 ["-"] =
  ([Stdout [98; 10]; Stdout [10]; Stdout [99; 10]; Stdout [101; 10]]%Z, Ok tt).
Proof.
  exact (proj1 (run_files_text_lines (fun _ _ => []) (fun _ => Ok [])
    (fun _ => text_file [[97; 98; 13]; []; [0x20AC; 99]] [100; 101])%Z
    (mk_config ["-"] 9 (Chars [mk_range 1 2])) 0 "-"
    [[97; 98; 13]; []; [0x20AC; 99]]%Z [100; 101]%Z eq_refl eq_refl eq_refl) [mk_range 1 2] eq_refl).
Defined.

(** X19: For --chars or --bytes, the first line that is not valid UTF-8 stops the run with the 'stream did not contain valid UTF-8' error after the preceding lines are printed; later files are not processed. The invalid line may end in a newline or be the last line of the file without one, and the lines before it may end in "\n" or "\r\n". *)
Theorem run_files_invalid_line (read_records : Z -> list Z -> list (result (list string)))
  (fs : string -> result (list Z)) (stdin : nat -> list Z) (config : Config) (k : nat)
  (f : string) (more : list string) (ls : list (list Z)) (bad term rest : list Z) :
  open fs (stdin k) f = Ok (text_file ls [] ++ bad ++ term ++ rest)%list ->
  forallb newline_free ls = true ->
  existsb (Z.eqb 10) bad = false -> (term = [10%Z] \/ (term = [] /\ rest = [])) ->
  run_utf8_validation 0 (bad ++ term) <> None ->
  (forall l, extract config = Chars l ->
     run_files read_records fs stdin config k (f :: more) =
       (map (fun line => Stdout (as_bytes (extract_chars line l) ++ [10%Z])%list) (map trim_cr ls),
        Err INVALID_UTF8)) /\
  (forall l, extract config = Bytes l ->
     run_files read_records fs stdin config k (f :: more) =
       (map (fun line => Stdout (as_bytes (extract_bytes line l) ++ [10%Z])%list) (map trim_cr ls),
        Err INVALID_UTF8)).
Proof.
  intros Ho Hls Hn Ht Hv.
  assert (Hl : lines (text_file ls [] ++ bad ++ term ++ rest) =
               (map Ok (map trim_cr ls) ++ Err INVALID_UTF8 :: lines rest)%list).
  { unfold text_file. change (as_bytes []) with (@nil Z). rewrite app_nil_r.
    rewrite Reading.lines_text_prefix by exact Hls.
    rewrite Reading.lines_bad_chunk by assumption. rewrite map_map. reflexivity. }
  split; intros l He; cbn [run_files]; rewrite Ho; unfold process; rewrite He, Hl;
    rewrite Reading.print_lines_ok; cbn [print_lines]; rewrite app_nil_r; reflexivity.
Qed.

Lemma run_files_invalid_line_witness :
  run_files (fun _ _ => []) (fun _ => Ok [97; 13; 10; 0xFF]%Z) (fun _ => [])
    (mk_config [] 9 (Bytes [mk_range 0 1])) 0 ["x"; "y"] =
  ([Stdout [97; 10]%Z], Err INVALID_UTF8).
Proof.
  exact (proj2 (run_files_invalid_line (fun _ _ => []) (fun _ => Ok [97; 13; 10; 0xFF]%Z)
    (fun _ => []) (mk_config [] 9 (Bytes [mk_range 0 1])) 0 "x" ["y"] [[97; 13]%Z] [0xFF%Z] [] []
    eq_refl eq_refl eq_refl (or_intror (conj eq_refl eq_refl)) ltac:(vm_compute; discriminate))
    [mk_range 0 1] eq_refl).
Defined.

(** X20: For --fields, after a successful get_args, each record read from a file is printed as its selected fields joined by the delimiter character and followed by a newline. *)
Theorem run_files_fields_joined (read_records : Z -> list Z -> list (result (list string)))
  (fs : string -> result (list Z)) (stdin : nat -> list Z) (m : Matches) (config : Config)
  (k : nat) (f : string) (content : list Z) (recs : list (list string)) (l : PositionList) :
  get_args m = Ok config -> forallb is_scalar (m_delimiter m) = true ->
  extract config = Fields l ->
  open fs (stdin k) f = Ok content ->
  read_records (delimiter config) content = map Ok recs ->
  run_files read_records fs stdin config k [f] =
    (map (fun record => Stdout (bytes_of_string
            (String.concat (string_of_bytes (as_bytes (m_delimiter m)))
                           (extract_fields record l)) ++ [10%Z])%list) recs, Ok tt).
Proof.
  intros Hg Hs He Ho Hr.
  destruct (Driver.get_args_ok m config Hg Hs) as [Hd [Hc _]].
  assert (Hb : as_bytes (m_delimiter m) = [delimiter config]).
  { rewrite Hd. unfold as_bytes, encode_utf8. cbn [flat_map].
    destruct (Z.ltb_spec (delimiter config) 0x80); [reflexivity | lia]. }
  rewrite Hb. cbn [run_files]. rewrite Ho. unfold process. rewrite He, Hr.
  rewrite Driver.print_records_ok by exact Hc. cbn [run_files]. rewrite app_nil_r. reflexivity.
Qed.

Lemma run_files_fields_joined_witness :
  run_files (fun _ _ => [Ok ["a"; "b"; "c"]]) (fun _ => Ok []) (fun _ => [])
    (mk_config ["t.csv"] 44 (Fields [mk_range 2 3; mk_range 0 1])) 0 ["t.csv"] =
  ([Stdout [99; 44; 97; 10]%Z], Ok tt).
Proof.
  apply (run_files_fields_joined (fun _ _ => [Ok ["a"; "b"; "c"]]) (fun _ => Ok []) (fun _ => [])
    (mk_matches ["t.csv"] [44%Z] None None (Some "3,1"))
    (mk_config ["t.csv"] 44 (Fields [mk_range 2 3; mk_range 0 1])) 0 "t.csv" []
    [["a"; "b"; "c"]] [mk_range 2 3; mk_range 0 1]); reflexivity.
Defined.
